(** * conntracct: sinks, the InfluxDB batching workers and the probe's sampling tests

    A shallow embedding of
    - [internal/sinks/types/sink_type.go]   (module [types]),
    - [internal/sinks/dummy/dummy.go]       (module [dummy]),
    - the InfluxDB sink's [sendWorker] and [tickWorker] (module [influxdb]),
    - the probe's integration tests [TestAcctProbeStartup] and
      [TestAcctProbeLongterm] (module [bpf]).

    Definitions come first, module by module; the theorems follow. *)

From Stdlib Require Import ZArith NArith List Sorted String Bool Lia.
Import ListNotations.

Open Scope string_scope.
Open Scope list_scope.

(** Go's [error]: [None] is [nil], [Some msg] carries the message. *)
Definition error : Type := option string.

(* ================================================================== *)
(** ** Package [types] *)
(* ================================================================== *)

Module types.

(** [type SinkType uint8]. *)
Definition SinkType : Type := N.

Definition uint8_max : N := 255%N.

(** A [const ( X T = iota; Y; Z; ... )] block: the identifiers it declares,
    in order, each with the value [iota] gives it. *)
Definition iota_block (names : list string) : list (string * SinkType) :=
  combine names (map N.of_nat (seq 0 (List.length names))).

(** [const ( StdIO SinkType = iota; InfluxUDP; InfluxHTTP; Elastic )]. *)
Definition SinkType_consts : list (string * SinkType) :=
  iota_block ["StdIO"; "InfluxUDP"; "InfluxHTTP"; "Elastic"].

Definition StdIO : SinkType := 0%N.
Definition InfluxUDP : SinkType := 1%N.
Definition InfluxHTTP : SinkType := 2%N.
Definition Elastic : SinkType := 3%N.

(** The value a name of the enum stands for, if the block declares it. *)
Fixpoint lookup_const (name : string) (block : list (string * SinkType))
  : option SinkType :=
  match block with
  | [] => None
  | (n, v) :: rest => if String.eqb name n then Some v else lookup_const name rest
  end.

(** Modelled from the spec: [SinkConfig], whose declaration is not among the
    sources (section 3: name, sink type, backend connection parameters, flush
    interval, batch size).  The sources read its [Name] field only. *)
Record SinkConfig : Type := mkSinkConfig {
  Name : string;
  Type_ : SinkType;
  Backend : string;
  FlushInterval : Z;
  BatchSize : N
}.

(** Go's zero value [SinkConfig{}]. *)
Definition SinkConfig_zero : SinkConfig :=
  {| Name := ""; Type_ := 0%N; Backend := ""; FlushInterval := 0%Z; BatchSize := 0%N |}.

(** Modelled from the spec: [SinkStats] and its methods, whose declaration is
    not among the sources (section 3: three monotonic counters, incremented
    atomically, read through a snapshot accessor).  The counters' width is not
    shown; they are natural numbers here. *)
Record SinkStats : Type := mkSinkStats {
  eventsPushed : N;
  batchesSent : N;
  batchesDropped : N
}.

Definition SinkStats_zero : SinkStats :=
  {| eventsPushed := 0%N; batchesSent := 0%N; batchesDropped := 0%N |}.

Definition IncrEventsPushed (s : SinkStats) : SinkStats :=
  {| eventsPushed := (eventsPushed s + 1)%N;
     batchesSent := batchesSent s;
     batchesDropped := batchesDropped s |}.

Definition IncrBatchSent (s : SinkStats) : SinkStats :=
  {| eventsPushed := eventsPushed s;
     batchesSent := (batchesSent s + 1)%N;
     batchesDropped := batchesDropped s |}.

Definition IncrBatchDropped (s : SinkStats) : SinkStats :=
  {| eventsPushed := eventsPushed s;
     batchesSent := batchesSent s;
     batchesDropped := (batchesDropped s + 1)%N |}.

(** [Get] returns a copy of the three counters. *)
Definition Get (s : SinkStats) : SinkStats :=
  {| eventsPushed := eventsPushed s;
     batchesSent := batchesSent s;
     batchesDropped := batchesDropped s |}.

End types.

(* ================================================================== *)
(** ** Package [dummy] *)
(* ================================================================== *)

Module dummy.
Import types.

Section Dummy.

(** [bpf.Event]: declared outside the sources, and never inspected here. *)
Variable Event : Type.

(** [type Dummy struct { init bool; config types.SinkConfig; stats types.SinkStats }]. *)
Record Dummy : Type := mkDummy {
  init : bool;
  config : SinkConfig;
  stats : SinkStats
}.

(** [func New() Dummy { return Dummy{} }]. *)
Definition New : Dummy :=
  {| init := false; config := SinkConfig_zero; stats := SinkStats_zero |}.

(** [func (d *Dummy) Init(sc types.SinkConfig) error]: the receiver after the
    call, and the returned error. *)
Definition Init (sc : SinkConfig) (d : Dummy) : Dummy * error :=
  let d1 := {| init := init d; config := sc; stats := stats d |} in
  let d2 := {| init := true; config := config d1; stats := stats d1 |} in
  (d2, None).

(** [func (d *Dummy) Push(e bpf.Event)]: no result, the receiver after the call. *)
Definition Push (e : Event) (d : Dummy) : Dummy :=
  let d1 := {| init := init d; config := config d; stats := IncrEventsPushed (stats d) |} in
  {| init := init d1; config := config d1; stats := IncrBatchDropped (stats d1) |}.

Definition Name_ (d : Dummy) : string := Name (config d).

Definition IsInit (d : Dummy) : bool := init d.

Definition WantUpdate (d : Dummy) : bool := true.

Definition WantDestroy (d : Dummy) : bool := true.

Definition Stats (d : Dummy) : SinkStats := Get (stats d).

(** What every snapshot of a Dummy's counters looks like: as many batches
    dropped as events pushed, none sent. *)
Definition balanced (st : SinkStats) : Prop :=
  eventsPushed st = batchesDropped st /\ batchesSent st = 0%N.

(** A caller's use of one sink: the calls it makes, in order. *)
Inductive call : Type :=
| CallInit (sc : SinkConfig)
| CallPush (e : Event)
| CallStats.

(** Runs the calls on [d]; returns the sink afterwards and the snapshots the
    [Stats] calls returned, in order. *)
Fixpoint run (cs : list call) (d : Dummy) : Dummy * list SinkStats :=
  match cs with
  | [] => (d, [])
  | CallInit sc :: rest => run rest (fst (Init sc d))
  | CallPush e :: rest => run rest (Push e d)
  | CallStats :: rest =>
      let (d', snaps) := run rest d in (d', Stats d :: snaps)
  end.

(** How many of the calls are calls of [Push]. *)
Fixpoint pushes (cs : list call) : N :=
  match cs with
  | [] => 0%N
  | CallPush _ :: rest => (1 + pushes rest)%N
  | _ :: rest => pushes rest
  end.

(** The configuration of the last call of [Init] among the calls, [acc] when
    there is none. *)
Fixpoint last_init (cs : list call) (acc : option SinkConfig) : option SinkConfig :=
  match cs with
  | [] => acc
  | CallInit sc :: rest => last_init rest (Some sc)
  | _ :: rest => last_init rest acc
  end.

End Dummy.

Arguments CallInit {Event} sc.
Arguments CallStats {Event}.

End dummy.

(* ================================================================== *)
(** ** Package [influxdb]: the batching sink's two workers *)
(* ================================================================== *)

Module influxdb.
Import types.

Section InfluxSink.

(** An encoded point and the event [Push] receives: both declared outside the
    sources.  [encode] is the encoding [Push] applies, [cap] the capacity
    [sendChan] was made with (0 for an unbuffered channel); neither is shown. *)
Variable Point : Type.
Variable Event : Type.
Variable encode : Event -> Point.
Variable cap : nat.

(** The client's batch of points, and [b.Points()]. *)
Definition Batch : Type := list Point.

Definition Points (b : Batch) : list Point := b.

(** The goroutines that use one sink. *)
Inductive goroutine : Type := Pusher | TickWorker | SendWorker.

(** Where [tickWorker] stands in its loop: at [<-t.C], at
    [s.batchMu.Lock()], at the test of [len(s.batch.Points())], at
    [s.sendChan <- s.batch], at [s.newBatch()], at [s.batchMu.Unlock()]. *)
Inductive tick_pc : Type :=
| TickWait | TickLock | TickCheck | TickSend | TickNewBatch | TickUnlock.

(** Where [sendWorker] stands: at [b := <-s.sendChan], or inside
    [s.client.Write(b)]. *)
Inductive send_pc : Type :=
| SendRecv
| SendWrite (b : Batch).

(** Where a call of [Push] stands: no call in progress, waiting for the lock,
    appending under the lock, unlocking. *)
Inductive push_pc : Type :=
| PushIdle
| PushLock (e : Event)
| PushAppend (e : Event)
| PushUnlock.

(** The sink ([config], [stats], [batch], [batchMu], [sendChan]), the three
    goroutines' positions, the log, and two histories kept for the statements:
    the batches [tickWorker] handed off and the calls of [Write] that returned,
    each in order. *)
Record state : Type := mkState {
  config : SinkConfig;
  stats : SinkStats;
  batch : Batch;
  batchMu : option goroutine;
  sendChan : list Batch;
  tickW : tick_pc;
  sendW : send_pc;
  pushW : push_pc;
  logged : list string;
  closed : list Batch;
  writes : list (Batch * error)
}.

Definition set_stats (x : SinkStats) (s : state) : state :=
  mkState (config s) x (batch s) (batchMu s) (sendChan s) (tickW s) (sendW s)
          (pushW s) (logged s) (closed s) (writes s).

Definition set_batch (x : Batch) (s : state) : state :=
  mkState (config s) (stats s) x (batchMu s) (sendChan s) (tickW s) (sendW s)
          (pushW s) (logged s) (closed s) (writes s).

Definition set_batchMu (x : option goroutine) (s : state) : state :=
  mkState (config s) (stats s) (batch s) x (sendChan s) (tickW s) (sendW s)
          (pushW s) (logged s) (closed s) (writes s).

Definition set_sendChan (x : list Batch) (s : state) : state :=
  mkState (config s) (stats s) (batch s) (batchMu s) x (tickW s) (sendW s)
          (pushW s) (logged s) (closed s) (writes s).

Definition set_tickW (x : tick_pc) (s : state) : state :=
  mkState (config s) (stats s) (batch s) (batchMu s) (sendChan s) x (sendW s)
          (pushW s) (logged s) (closed s) (writes s).

Definition set_sendW (x : send_pc) (s : state) : state :=
  mkState (config s) (stats s) (batch s) (batchMu s) (sendChan s) (tickW s) x
          (pushW s) (logged s) (closed s) (writes s).

Definition set_pushW (x : push_pc) (s : state) : state :=
  mkState (config s) (stats s) (batch s) (batchMu s) (sendChan s) (tickW s) (sendW s)
          x (logged s) (closed s) (writes s).

Definition set_logged (x : list string) (s : state) : state :=
  mkState (config s) (stats s) (batch s) (batchMu s) (sendChan s) (tickW s) (sendW s)
          (pushW s) x (closed s) (writes s).

Definition set_closed (x : list Batch) (s : state) : state :=
  mkState (config s) (stats s) (batch s) (batchMu s) (sendChan s) (tickW s) (sendW s)
          (pushW s) (logged s) x (writes s).

Definition set_writes (x : list (Batch * error)) (s : state) : state :=
  mkState (config s) (stats s) (batch s) (batchMu s) (sendChan s) (tickW s) (sendW s)
          (pushW s) (logged s) (closed s) x.

(** A sink after [Init]: empty batch, free lock, empty channel, the two workers
    started, no call of [Push] in progress. *)
Definition start (cfg : SinkConfig) : state :=
  mkState cfg SinkStats_zero [] None [] TickWait SendRecv PushIdle [] [] [].

(** [s.batchMu.Lock()] by [g]: [None] while another goroutine holds the lock. *)
Definition Lock (g : goroutine) (s : state) : option state :=
  match batchMu s with
  | None => Some (set_batchMu (Some g) s)
  | Some _ => None
  end.

Definition Unlock (s : state) : state := set_batchMu None s.

(** [s.sendChan <- b]: handed straight to [sendWorker] when it waits at its
    receive and nothing is queued before [b]; queued when the buffer has room;
    [None] (the sender waits) otherwise. *)
Definition chan_send (b : Batch) (s : state) : option state :=
  match sendW s, sendChan s with
  | SendRecv, [] => Some (set_sendW (SendWrite b) s)
  | _, q => if Nat.ltb (List.length q) cap
            then Some (set_sendChan (q ++ [b]) s)
            else None
  end.

(** [<-s.sendChan]: the oldest queued batch; [None] (the receiver waits) when
    nothing is queued. *)
Definition chan_recv (s : state) : option (Batch * state) :=
  match sendChan s with
  | b :: q => Some (b, set_sendChan q s)
  | [] => None
  end.

(** Modelled from the spec: [newBatch], a method of the sink that is not among
    the sources (section 4.4: "allocate a new empty batch"). *)
Definition newBatch (s : state) : state := set_batch [] s.

(** The line [log.Errorf] writes when a batch is dropped. *)
Definition dropped_line (name err : string) : string :=
  ("InfluxDB sink '" ++ name ++ "': Error writing batch: " ++ err ++ ". Batch dropped.")%string.

(** One step of [sendWorker].  At the receive it takes the next batch and
    calls [Write]; inside [Write] it gets the backend's answer [r], counts the
    batch as dropped (and logs) or as sent, and goes back to the receive. *)
Definition sendWorker (r : error) (s : state) : option state :=
  match sendW s with
  | SendRecv =>
      match chan_recv s with
      | Some (b, s1) => Some (set_sendW (SendWrite b) s1)
      | None => None
      end
  | SendWrite b =>
      let s1 := set_writes (writes s ++ [(b, r)]) s in
      match r with
      | Some err =>
          let s2 := set_logged (logged s1 ++ [dropped_line (Name (config s1)) err]) s1 in
          let s3 := set_stats (IncrBatchDropped (stats s2)) s2 in
          Some (set_sendW SendRecv s3)
      | None =>
          let s2 := set_stats (IncrBatchSent (stats s1)) s1 in
          Some (set_sendW SendRecv s2)
      end
  end.

(** One step of [tickWorker]. *)
Definition tickWorker (s : state) : option state :=
  match tickW s with
  | TickWait => Some (set_tickW TickLock s)
  | TickLock =>
      match Lock TickWorker s with
      | Some s1 => Some (set_tickW TickCheck s1)
      | None => None
      end
  | TickCheck =>
      if negb (Nat.eqb (List.length (Points (batch s))) 0)
      then Some (set_tickW TickSend s)
      else Some (set_tickW TickUnlock s)
  | TickSend =>
      match chan_send (batch s) s with
      | Some s1 => Some (set_tickW TickNewBatch (set_closed (closed s1 ++ [batch s]) s1))
      | None => None
      end
  | TickNewBatch => Some (set_tickW TickUnlock (newBatch s))
  | TickUnlock => Some (set_tickW TickWait (Unlock s))
  end.

(** Modelled from the spec: the sink's [Push], which is not among the sources
    (sections 4.3 and 4.4: it appends the event's encoding to the active batch
    under the batch lock, and always increments [eventsPushed]).  One step of
    the call in progress; [e] is the event of the call that starts when none
    is in progress. *)
Definition Push (e : Event) (s : state) : option state :=
  match pushW s with
  | PushIdle => Some (set_pushW (PushLock e) s)
  | PushLock e' =>
      match Lock Pusher s with
      | Some s1 => Some (set_pushW (PushAppend e') s1)
      | None => None
      end
  | PushAppend e' => Some (set_pushW PushUnlock (set_batch (batch s ++ [encode e']) s))
  | PushUnlock =>
      Some (set_pushW PushIdle (set_stats (IncrEventsPushed (stats s)) (Unlock s)))
  end.

(** The goroutines interleave: each action is one step of one of them. *)
Inductive action : Type :=
| ATick
| ASend (r : error)
| APush (e : Event).

Definition step (a : action) (s : state) : option state :=
  match a with
  | ATick => tickWorker s
  | ASend r => sendWorker r s
  | APush e => Push e s
  end.

(** A schedule, run from [s]: [None] when one of its steps is not enabled. *)
Fixpoint run (sched : list action) (s : state) : option state :=
  match sched with
  | [] => Some s
  | a :: rest =>
      match step a s with
      | Some s1 => run rest s1
      | None => None
      end
  end.

Definition reachable (cfg : SinkConfig) (s : state) : Prop :=
  exists sched, run sched (start cfg) = Some s.

(** The batches on their way to the backend, oldest first: the one inside
    [Write], then those queued in [sendChan]. *)
Definition in_flight (s : state) : list Batch :=
  match sendW s with
  | SendRecv => sendChan s
  | SendWrite b => b :: sendChan s
  end.

(** The batches the backend accepted, in the order of the calls. *)
Definition delivered (s : state) : list Batch :=
  map fst (filter (fun w => match snd w with None => true | Some _ => false end) (writes s)).

(** [s.sendChan <- b] would go through at once. *)
Definition can_send (s : state) : bool :=
  match sendW s, sendChan s with
  | SendRecv, [] => true
  | _, q => Nat.ltb (List.length q) cap
  end.

(** The positions at which a goroutine holds [batchMu]. *)
Definition tick_holds (pc : tick_pc) : bool :=
  match pc with
  | TickCheck | TickSend | TickNewBatch | TickUnlock => true
  | TickWait | TickLock => false
  end.

Definition push_holds (pc : push_pc) : bool :=
  match pc with
  | PushAppend _ | PushUnlock => true
  | PushIdle | PushLock _ => false
  end.

(** Who holds the lock, read off the goroutines' positions. *)
Definition holder (s : state) : option goroutine :=
  if tick_holds (tickW s) then Some TickWorker
  else if push_holds (pushW s) then Some Pusher
  else None.

(** The lock is held by the goroutine whose position says so, and by one at
    a time. *)
Definition lock_ok (s : state) : Prop :=
  batchMu s = holder s /\
  (tick_holds (tickW s) && push_holds (pushW s) = false).

(** Every batch handed off is either written already, inside [Write], or
    queued, in that order. *)
Definition accounted (s : state) : Prop :=
  closed s = map fst (writes s) ++ in_flight s.

(** Nothing in progress but a call of [Write], with [j] batches queued. *)
Definition quiet (j : nat) (s : state) : Prop :=
  tickW s = TickWait /\ pushW s = PushIdle /\ batchMu s = None /\ batch s = [] /\
  (exists b, sendW s = SendWrite b) /\ List.length (sendChan s) = j.

(** The calls of [Write] that returned an error. *)
Definition failed (w : Batch * error) : bool :=
  match snd w with
  | Some _ => true
  | None => false
  end.

(** The lines a sink named [name] logs for these calls of [Write]. *)
Definition drop_log (name : string) (ws : list (Batch * error)) : list string :=
  flat_map (fun w => match snd w with
                     | Some err => [dropped_line name err]
                     | None => []
                     end) ws.

(** The steps of [tickWorker] in a schedule. *)
Definition is_tick (a : action) : bool :=
  match a with
  | ATick => true
  | _ => false
  end.

Definition tick_steps (sched : list action) : nat :=
  List.length (filter is_tick sched).

(** [tickWorker], [n] of its steps after its ticker fired, on its way to its
    test of the batch: where it stands, and that the batches handed off are
    still [c], those handed off before the tick. *)
Definition before_test (c : list Batch) (n : nat) (s : state) : Prop :=
  lock_ok s /\
  match n with
  | 0%nat => tickW s = TickWait /\ closed s = c
  | 1%nat => tickW s = TickLock /\ closed s = c
  | 2%nat => tickW s = TickCheck /\ closed s = c
  | _ => True
  end.

(** [tickWorker], [n] of its steps after it has taken the lock and found the
    batch [b], the batches handed off before being [c]: where it stands,
    what the active batch is and what has been handed off. *)
Definition after_test (b : Batch) (c : list Batch) (n : nat) (s : state) : Prop :=
  lock_ok s /\
  match b with
  | [] =>
      match n with
      | 0%nat => tickW s = TickCheck /\ batch s = [] /\ closed s = c
      | 1%nat => tickW s = TickUnlock /\ batch s = [] /\ closed s = c
      | 2%nat => tickW s = TickWait /\ closed s = c
      | _ => True
      end
  | _ :: _ =>
      match n with
      | 0%nat => tickW s = TickCheck /\ batch s = b /\ closed s = c
      | 1%nat => tickW s = TickSend /\ batch s = b /\ closed s = c
      | 2%nat => tickW s = TickNewBatch /\ batch s = b /\ closed s = c ++ [b]
      | 3%nat => tickW s = TickUnlock /\ batch s = [] /\ closed s = c ++ [b]
      | 4%nat => tickW s = TickWait /\ closed s = c ++ [b]
      | _ => True
      end
  end.

(** Nothing is on its way to the backend; the calls of [Write] made are
    [ws], and the two counters of delivery are [sent] and [dropped]. *)
Definition idle (ws : list (Batch * error)) (sent dropped : N) (s : state) : Prop :=
  in_flight s = [] /\ writes s = ws /\
  batchesSent (stats s) = sent /\ batchesDropped (stats s) = dropped.

(** [xs] is [ys] with some elements left out, the others in the same order. *)
Inductive subseq {A : Type} : list A -> list A -> Prop :=
| subseq_nil : subseq [] []
| subseq_skip : forall x xs ys, subseq xs ys -> subseq xs (x :: ys)
| subseq_keep : forall x xs ys, subseq xs ys -> subseq (x :: xs) (x :: ys).

(** Schedules: a whole call of [Push] with nothing in between (call, lock,
    append, unlock), and [n] steps of [tickWorker] in a row. *)
Definition push_call (e : Event) : list action :=
  [APush e; APush e; APush e; APush e].

Definition ticks (n : nat) : list action := repeat ATick n.

(** One event pushed, then a whole pass of [tickWorker] that hands the batch
    off (tick, lock, test, send, new batch, unlock). *)
Definition round (e : Event) : list action := push_call e ++ ticks 6.

Fixpoint rounds (e : Event) (n : nat) : list action :=
  match n with
  | O => []
  | S k => round e ++ rounds e k
  end.

(** A backend that does not answer: [cap + 1] batches are handed off while
    the first is inside [Write]; then one more event is pushed, [tickWorker]
    takes the lock and reaches its send, and the next [Push] is called. *)
Definition stall (e : Event) : list action :=
  rounds e (S cap) ++ push_call e ++ ticks 3 ++ [APush e].

End InfluxSink.

Arguments TickWait : clear implicits.
Arguments SendRecv {Point}.
Arguments SendWrite {Point} b.
Arguments PushIdle {Event}.
Arguments PushLock {Event} e.
Arguments PushAppend {Event} e.
Arguments PushUnlock {Event}.
Arguments ATick {Event}.
Arguments ASend {Event} r.
Arguments APush {Event} e.
Arguments mkState {Point Event}.
Arguments config {Point Event} s.
Arguments stats {Point Event} s.
Arguments batch {Point Event} s.
Arguments batchMu {Point Event} s.
Arguments sendChan {Point Event} s.
Arguments tickW {Point Event} s.
Arguments sendW {Point Event} s.
Arguments pushW {Point Event} s.
Arguments logged {Point Event} s.
Arguments closed {Point Event} s.
Arguments writes {Point Event} s.
Arguments start {Point Event} cfg.
Arguments Lock {Point Event} g s.
Arguments Unlock {Point Event} s.
Arguments chan_send {Point Event} cap b s.
Arguments chan_recv {Point Event} s.
Arguments newBatch {Point Event} s.
Arguments sendWorker {Point Event} r s.
Arguments tickWorker {Point Event} cap s.
Arguments Push {Point Event} encode e s.
Arguments step {Point Event} encode cap a s.
Arguments run {Point Event} encode cap sched s.
Arguments reachable {Point Event} encode cap cfg s.
Arguments in_flight {Point Event} s.
Arguments delivered {Point Event} s.
Arguments can_send {Point Event} cap s.
Arguments push_holds {Event} pc.
Arguments holder {Point Event} s.
Arguments lock_ok {Point Event} s.
Arguments accounted {Point Event} s.
Arguments quiet {Point Event} j s.
Arguments is_tick {Event} a.
Arguments tick_steps {Event} sched.
Arguments before_test {Point Event} c n s.
Arguments after_test {Point Event} b c n s.
Arguments idle {Point Event} ws sent dropped s.
Arguments failed {Point} w.
Arguments drop_log {Point} name ws.
Arguments push_call {Event} e.
Arguments ticks {Event} n.
Arguments round {Event} e.
Arguments rounds {Event} e n.
Arguments stall {Event} cap e.

(** For the examples: events and points are numbers, an event is encoded as
    itself. *)
Definition plain (e : nat) : nat := e.

End influxdb.

(* ================================================================== *)
(** ** Package [bpf]: the probe's integration tests *)
(* ================================================================== *)

Module bpf.

(** [AcctEvent], with the fields the two sampling tests read. *)
Record AcctEvent : Type := mkAcctEvent {
  SrcPort : N;
  PacketsOrig : N;
  PacketsRet : N
}.

(** Go's zero value [AcctEvent{}]. *)
Definition AcctEvent_zero : AcctEvent :=
  {| SrcPort := 0%N; PacketsOrig := 0%N; PacketsRet := 0%N |}.

(** [const ( udpServ = 1342; cd = 20 )]: the echo server's port and the
    cooldown, in milliseconds, that [TestMain] configures. *)
Definition udpServ : N := 1342%N.
Definition cd : Z := 20%Z.

Definition errChanTimeout : string := "timeout".

(** The cumulative packet count the tests compare:
    [ev.PacketsOrig+ev.PacketsRet]. *)
Definition total (ev : AcctEvent) : N := (PacketsOrig ev + PacketsRet ev)%N.

(** Modelled from the spec: the count after which the startup burst is over
    (section 4.2: the burst ends with packet 32). *)
Definition burst_threshold : N := 32%N.

(** Modelled from the spec: the steady-state gate of the sampling policy
    (section 4.2), which the kernel-side program applies and which is not among
    the sources: a packet is reported when the cooldown has elapsed since the
    flow's previous report.  [elapsed] is the time since that report, [None]
    when the flow has not been reported yet. *)
Definition cooldown_elapsed (cooldown : Z) (elapsed : option Z) : bool :=
  match elapsed with
  | Some e => (cooldown <=? e)%Z
  | None => true
  end.

(** Modelled from the spec: the sampling policy of section 4.2, with the
    burst's packet counts left open: up to the burst threshold a packet is
    reported when its cumulative count is one of [burst], afterwards when the
    cooldown has elapsed. *)
Definition sample_with (burst : list N) (cooldown : Z) (count : N) (elapsed : option Z) : bool :=
  if (count <=? burst_threshold)%N
  then existsb (N.eqb count) burst
  else cooldown_elapsed cooldown elapsed.


(** The policy with the burst as the comment on [TestAcctProbeStartup] words
    it, "logging packet 1, 2, 8 and 32 of a flow". *)
Definition sample_1_2_8_32 : Z -> N -> option Z -> bool :=
  sample_with [1; 2; 8; 32]%N.

(** Modelled from the spec: what section 4.2 asks of a policy in steady state,
    whatever it does during the burst. *)
Definition steady_state (cooldown : Z) (sample : N -> option Z -> bool) : Prop :=
  forall count e, (burst_threshold < count)%N ->
    sample count (Some e) = (cooldown <=? e)%Z.

(** Modelled from the spec: what section 4.2 asks of a policy during the
    startup burst, whatever the counts at which it reports ("for a newly
    observed flow, report an Update at packet counts ..."): up to the burst
    threshold the decision is made by the packet count alone, not by the
    time since the flow's last report; the cooldown only counts "after the
    burst threshold".  The kernel-side program is not among the sources. *)
Definition burst_by_count (sample : N -> option Z -> bool) : Prop :=
  forall count e e', (count <= burst_threshold)%N -> sample count e = sample count e'.

(** A producer that the two tests cannot tell from [sample_1_2_8_32]: it
    reports the same packets when they come back to back and after a
    cooldown, and packets 3 to 7 as well when they come a millisecond or more
    after the last report.  It does not decide by the count alone. *)
Definition sample_gap (cooldown : Z) (count : N) (elapsed : option Z) : bool :=
  match elapsed with
  | Some e =>
      if ((1 <=? e)%Z && (3 <=? count)%N && (count <=? 7)%N)%bool
      then true
      else sample_1_2_8_32 cooldown count elapsed
  | None => sample_1_2_8_32 cooldown count elapsed
  end.

Section Probe.

(** The producer's decision (section 2, "Sampling policy": a pure function of
    the flow's running packet count and of the time since its last reported
    event).  The kernel-side program that computes it is not among the sources;
    the tests below are run against any such function. *)
Variable sample : N -> option Z -> bool.

Inductive direction : Type := Orig | Ret.

(** What the producer keeps for the test's flow: the client's port, the packet
    counters of the two directions, the time of the last report. *)
Record flow : Type := mkFlow {
  sport : N;
  pkts_orig : N;
  pkts_ret : N;
  last : option Z
}.

(** What a test runs in: the clock (milliseconds), the flow, the events sent
    on the consumer's channel [in] that no read has accounted for yet, and
    whether [in] has been closed.  The goroutine [filterWorker] takes the
    events as they come; how far it has got with them depends on the events
    alone, not on when it ran, and is worked out at the next read. *)
Record world : Type := mkWorld {
  now : Z;
  conn : flow;
  in_chan : list AcctEvent;
  in_closed : bool
}.

Definition count (d : direction) (f : flow) : flow :=
  match d with
  | Orig => mkFlow (sport f) (pkts_orig f + 1)%N (pkts_ret f) (last f)
  | Ret => mkFlow (sport f) (pkts_orig f) (pkts_ret f + 1)%N (last f)
  end.

Definition elapsed (w : world) : option Z :=
  match last (conn w) with
  | Some t => Some (now w - t)%Z
  | None => None
  end.

Definition event_of (f : flow) : AcctEvent :=
  {| SrcPort := sport f; PacketsOrig := pkts_orig f; PacketsRet := pkts_ret f |}.

(** Modelled from the spec: the kernel-side producer at one packet of the
    flow (sections 2 and 4.2; its program is not among the sources).  The
    packet is counted, and when [sample] says so an Update with the counters
    goes to the consumer and the time of the report is kept. *)
Definition packet (d : direction) (w : world) : world :=
  let f := count d (conn w) in
  let reported := sample (pkts_orig f + pkts_ret f)%N (elapsed w) in
  {| now := now w;
     conn := mkFlow (sport f) (pkts_orig f) (pkts_ret f)
                    (if reported then Some (now w) else last f);
     in_chan := in_chan w ++ (if reported then [event_of f] else []);
     in_closed := in_closed w |}.

(** [udpecho] is outside the sources; the tests' comments say what its client
    does: [Ping(n)] sends [n] two-way packets (each is echoed), [Nop(n)] sends
    [n] one-way packets. *)
Fixpoint Ping (n : nat) (w : world) : world :=
  match n with
  | O => w
  | S k => Ping k (packet Ret (packet Orig w))
  end.

Fixpoint Nop (n : nat) (w : world) : world :=
  match n with
  | O => w
  | S k => Nop k (packet Orig w)
  end.

(** [time.Sleep(ms * time.Millisecond)]. *)
Definition Sleep (ms : Z) (w : world) : world :=
  {| now := (now w + ms)%Z; conn := conn w; in_chan := in_chan w;
     in_closed := in_closed w |}.

(** [udpecho.Dial] on a fresh client port, with a consumer just registered:
    a new flow, nothing counted, nothing to read, [in] open. *)
Definition Dial (port : N) : world :=
  {| now := 0%Z; conn := mkFlow port 0%N 0%N None; in_chan := [];
     in_closed := false |}.

Definition ClientPort (w : world) : N := sport (conn w).

(** Where [filterWorker] stands when it can go no further: at its receive,
    [in] being empty and open; at its send of [ev] on the unbuffered [out],
    until a reader takes it; or returned, [in] being empty and closed, after
    closing [out]. *)
Inductive filter_pc : Type :=
| FilterRecv
| FilterSend (ev : AcctEvent)
| FilterDone.

(** [filterWorker], from its receive on until it can go no further, on the
    events [inc] that [in] holds: where it stands then, and what it has left
    in [in].  It receives one event after the other, drops those [f] rejects
    and stops at its send of the first one [f] accepts.  [closed] says
    whether [in] has been closed: a closed channel still yields the events
    it holds, and [ok = false] after them. *)
Fixpoint filterWorker (f : AcctEvent -> bool) (closed : bool) (inc : list AcctEvent)
  : filter_pc * list AcctEvent :=
  match inc with
  | [] => (if closed then FilterDone else FilterRecv, [])
  | ev :: rest => if f ev then (FilterSend ev, rest) else filterWorker f closed rest
  end.

(** [filterSourcePort]: the predicate its worker is started with. *)
Definition filterSourcePort (port : N) : AcctEvent -> bool :=
  fun ev => if N.eqb (SrcPort ev) port then true else false.

(** A test: it runs in a world, and stops at the first check that fails
    ([None]).  [assert] lets the Go test run on after a failure, [require]
    stops it; the verdict is "failed" in both cases, and the verdict is all
    that is modelled. *)
Definition test (A : Type) : Type := world -> option (A * world).

Definition ret {A : Type} (a : A) : test A := fun w => Some (a, w).

Definition bind {A B : Type} (m : test A) (k : A -> test B) : test B :=
  fun w => match m w with
           | Some (a, w1) => k a w1
           | None => None
           end.

Definition act (f : world -> world) : test unit := fun w => Some (tt, f w).

Definition require (ok : bool) : test unit :=
  fun w => if ok then Some (tt, w) else None.

Definition assert (ok : bool) : test unit := require ok.

Definition NoError (err : error) : bool :=
  match err with None => true | Some _ => false end.

Definition EqualError (err : error) (msg : string) : bool :=
  match err with None => false | Some m => String.eqb m msg end.

Definition EqualValues (expected actual : N) : bool := N.eqb expected actual.

(** [readTimeout(c, ms)] on the channel [out] of [filterWorker]: its select
    takes the event the worker is waiting to send, with a nil error; or, [out]
    being closed, the zero value at once, with a nil error too; or, the worker
    waiting at its receive, it times out after [ms] milliseconds.  By then the
    worker has received, and dropped, whatever [in] held.  Sending and reading
    take no time in this idealised run; only sleeping and timing out do, so
    that a timeout of more than nothing never fires before an event that is
    there to be read. *)
Definition readTimeout (f : AcctEvent -> bool) (ms : Z) : test (AcctEvent * error) :=
  fun w =>
    match filterWorker f (in_closed w) (in_chan w) with
    | (FilterSend ev, rest) =>
        Some ((ev, None),
              {| now := now w; conn := conn w; in_chan := rest;
                 in_closed := in_closed w |})
    | (FilterDone, rest) =>
        Some ((AcctEvent_zero, None),
              {| now := now w; conn := conn w; in_chan := rest;
                 in_closed := in_closed w |})
    | (FilterRecv, rest) =>
        Some ((AcctEvent_zero, Some errChanTimeout),
              {| now := (now w + ms)%Z; conn := conn w; in_chan := rest;
                 in_closed := in_closed w |})
    end.

Notation "x <- m ;; k" := (bind m (fun x => k))
  (at level 61, m at next level, right associativity).
Notation "m ;; k" := (bind m (fun _ => k))
  (at level 61, right associativity).

(** [TestAcctProbeStartup].  The consumer's registration and removal go
    through the probe's registry, which is not among the sources; they are
    taken to succeed. *)
Definition TestAcctProbeStartup : test unit :=
  fun w0 =>
  let out := filterSourcePort (ClientPort w0) in
  ( act (Ping 1) ;;
    r <- readTimeout out 10 ;;
    require (NoError (snd r)) ;;
    r <- readTimeout out 10 ;;
    require (NoError (snd r)) ;;
    act (Ping 3) ;;
    r <- readTimeout out 10 ;;
    require (NoError (snd r)) ;;
    assert (EqualValues 8 (PacketsOrig (fst r) + PacketsRet (fst r))) ;;
    act (Ping 12) ;;
    r <- readTimeout out 10 ;;
    require (NoError (snd r)) ;;
    assert (EqualValues 32 (PacketsOrig (fst r) + PacketsRet (fst r))) ;;
    r <- readTimeout out 10 ;;
    assert (EqualError (snd r) "timeout") ) w0.

(** The four reads of [for i := 0; i < 4; i++] in [TestAcctProbeLongterm]. *)
Fixpoint read_events (f : AcctEvent -> bool) (n : nat) : test unit :=
  match n with
  | O => ret tt
  | S k =>
      r <- readTimeout f 10 ;;
      assert (NoError (snd r)) ;;
      read_events f k
  end.

(** [TestAcctProbeLongterm]. *)
Definition TestAcctProbeLongterm : test unit :=
  fun w0 =>
  let out := filterSourcePort (ClientPort w0) in
  ( act (Ping 16) ;;
    read_events out 4 ;;
    r <- readTimeout out 20 ;;
    assert (EqualError (snd r) "timeout") ;;
    act (Sleep cd) ;;
    act (Nop 1) ;;
    r <- readTimeout out 20 ;;
    require (NoError (snd r)) ;;
    assert (EqualValues 33 (PacketsOrig (fst r) + PacketsRet (fst r))) ;;
    act (Sleep cd) ;;
    act (Nop 1) ;;
    r <- readTimeout out 20 ;;
    require (NoError (snd r)) ;;
    assert (EqualValues 34 (PacketsOrig (fst r) + PacketsRet (fst r))) ;;
    r <- readTimeout out 10 ;;
    assert (EqualError (snd r) "timeout") ) w0.

(** What a packet that arrives at the very time of the flow's last report
    sends to the consumer: the Update with counters [orig] and [ret], if the
    producer reports at that count with nothing elapsed. *)
Definition emit (port orig ret : N) : list AcctEvent :=
  if sample (orig + ret)%N (Some 0%Z) then [mkAcctEvent port orig ret] else [].

(** The Updates of [n] pings sent at that time, after [k] pings. *)
Fixpoint ping_events (port k : N) (n : nat) : list AcctEvent :=
  match n with
  | O => []
  | S m => emit port (k + 1) k ++ emit port (k + 1) (k + 1) ++ ping_events port (k + 1) m
  end.

(** A train of packets of the flow, each with the time (milliseconds) that
    passes before it arrives. *)
Fixpoint arrivals (pkts : list (Z * direction)) (w : world) : world :=
  match pkts with
  | [] => w
  | (gap, d) :: rest => arrivals rest (packet d (Sleep gap w))
  end.

(** The time a train takes. *)
Definition duration (pkts : list (Z * direction)) : Z :=
  fold_right (fun p acc => (fst p + acc)%Z) 0%Z pkts.

(** An event of the flow whose client port is [port]. *)
Definition own (port : N) (ev : AcctEvent) : Prop := SrcPort ev = port.


(** The verdict of a test run in [w]. *)
Definition passes (t : test unit) (w : world) : bool :=
  match t w with
  | Some _ => true
  | None => false
  end.

(** The cumulative counts at which Updates were reported, in the order in
    which the consumer receives them. *)
Definition reported_counts (w : world) : list N := map total (in_chan w).


End Probe.

End bpf.

(* ================================================================== *)
(** * Theorems *)
(* ================================================================== *)

(** ** The sink-type enum *)

Section SinkTypeFacts.
Import types.

Lemma lookup_const_In : forall name v block,
  lookup_const name block = Some v -> In (name, v) block.
Proof.
  intros name v block; induction block as [|[n w] rest IH]; simpl.
  - discriminate.
  - destruct (String.eqb name n) eqn:E.
    + apply String.eqb_eq in E; subst n.
      intros H; injection H as ->; now left.
    + intros H; right; auto.
Qed.

Lemma SinkType_consts_unfold :
  SinkType_consts =
  [("StdIO", StdIO); ("InfluxUDP", InfluxUDP); ("InfluxHTTP", InfluxHTTP); ("Elastic", Elastic)].
Proof. reflexivity. Qed.

(** C3, as the code has it: the enum declares exactly four names, [StdIO],
    [InfluxUDP], [InfluxHTTP] and [Elastic], numbered 0 to 3 in that order;
    the values are distinct and fit [uint8]; [Dummy] is not one of them. *)
Theorem SinkType_has_four_values :
  (forall name v,
      lookup_const name SinkType_consts = Some v <->
      (name = "StdIO" /\ v = StdIO) \/ (name = "InfluxUDP" /\ v = InfluxUDP) \/
      (name = "InfluxHTTP" /\ v = InfluxHTTP) \/ (name = "Elastic" /\ v = Elastic))
  /\ map snd SinkType_consts = [0; 1; 2; 3]%N
  /\ NoDup (map snd SinkType_consts)
  /\ Forall (fun c => (snd c <= uint8_max)%N) SinkType_consts
  /\ ~ In "Dummy" (map fst SinkType_consts).
Proof.
  rewrite SinkType_consts_unfold.
  split; [|split; [|split; [|split]]].
  - intros name v; split.
    + intros H; apply lookup_const_In in H; simpl in H.
      destruct H as [H|[H|[H|[H|[]]]]]; injection H as <- <-; tauto.
    + intros [[-> ->]|[[-> ->]|[[-> ->]|[-> ->]]]]; reflexivity.
  - reflexivity.
  - simpl; repeat constructor; simpl; intuition discriminate.
  - repeat constructor; unfold uint8_max; simpl; discriminate.
  - simpl; intuition discriminate.
Qed.

(** C3, as stated, fails: the enum has no value named [Dummy], so no
    [SinkConfig] can carry one. *)
Lemma SinkType_has_no_Dummy :
  lookup_const "Dummy" SinkType_consts = None /\
  List.length SinkType_consts = 4%nat.
Proof. split; reflexivity. Qed.

End SinkTypeFacts.

(** ** The Dummy sink *)

Section DummyFacts.
Import types dummy.

Variable Event : Type.

(** C8: a call of [Push] adds exactly one to [eventsPushed] and exactly one to
    [batchesDropped], leaves [batchesSent] and the rest of the sink alone, and
    has no error to return (its only result is the receiver). *)
Theorem Dummy_Push_counts : forall (e : Event) (d : Dummy),
  eventsPushed (Stats (Push Event e d)) = (eventsPushed (Stats d) + 1)%N /\
  batchesDropped (Stats (Push Event e d)) = (batchesDropped (Stats d) + 1)%N /\
  batchesSent (Stats (Push Event e d)) = batchesSent (Stats d) /\
  IsInit (Push Event e d) = IsInit d /\
  config (Push Event e d) = config d.
Proof.
  intros e d; unfold Push, Stats, IsInit; simpl; repeat split.
Qed.

Lemma balanced_zero : balanced (Get SinkStats_zero).
Proof. split; reflexivity. Qed.

Lemma balanced_Push : forall (e : Event) d,
  balanced (Stats d) -> balanced (Stats (Push Event e d)).
Proof.
  intros e d [Heq Hsent]; unfold balanced, Push, Stats in *; simpl in *.
  split; [now rewrite Heq | exact Hsent].
Qed.

Lemma balanced_Init : forall sc d,
  balanced (Stats d) -> balanced (Stats (fst (Init sc d))).
Proof. intros sc d H; exact H. Qed.

Lemma run_balanced : forall (cs : list (call Event)) d,
  balanced (Stats d) ->
  balanced (Stats (fst (run Event cs d))) /\
  Forall balanced (snd (run Event cs d)).
Proof.
  induction cs as [|c rest IH]; intros d Hd; simpl.
  - split; [exact Hd | constructor].
  - destruct c as [sc|e|].
    + apply IH, balanced_Init, Hd.
    + apply IH, balanced_Push, Hd.
    + destruct (IH d Hd) as [H1 H2].
      destruct (run Event rest d) as [d' snaps]; simpl in *.
      split; [exact H1 | constructor; assumption].
Qed.

(** C9: whatever calls of [Init], [Push] and [Stats] are made on a new Dummy,
    in whatever order, every snapshot [Stats] returns on the way, and the one
    it would return at the end, has [eventsPushed = batchesDropped] and
    [batchesSent = 0]. *)
Theorem Dummy_stats_invariant : forall cs : list (call Event),
  Forall balanced (snd (run Event cs New)) /\
  balanced (Stats (fst (run Event cs New))).
Proof.
  intros cs.
  destruct (run_balanced cs New balanced_zero) as [H1 H2].
  split; assumption.
Qed.

(** C10: a new Dummy is not initialised and has the empty name, and calls of
    [Push] do not change that; [Init sc] returns [nil] for every [sc], and
    afterwards the sink is initialised and its name is [sc]'s. *)
Theorem Dummy_Init_sets_name :
  (IsInit New = false /\ Name_ New = "") /\
  (forall (e : Event) d,
      IsInit (Push Event e d) = IsInit d /\ Name_ (Push Event e d) = Name_ d) /\
  (forall sc d,
      snd (Init sc d) = None /\
      IsInit (fst (Init sc d)) = true /\
      Name_ (fst (Init sc d)) = Name sc).
Proof.
  split; [|split].
  - split; reflexivity.
  - intros e d; split; reflexivity.
  - intros sc d; repeat split.
Qed.

End DummyFacts.

(** ** The InfluxDB sink's workers *)

Section InfluxFacts.
Import types influxdb.

Variable Point : Type.
Variable Event : Type.
Variable encode : Event -> Point.
Variable cap : nat.

Abbreviation state := (influxdb.state Point Event).

Local Arguments chan_send : simpl never.

(** Splits a state into its fields. *)
Ltac open_state s :=
  destruct s as [cf st bt mu ch tw sw pw lg cl wr]; simpl in *.

(** Brings the states of the goal, built with the setters, to records. *)
Ltac norm_state :=
  cbv [set_stats set_batch set_batchMu set_sendChan set_tickW set_sendW set_pushW
       set_logged set_closed set_writes Unlock newBatch
       config stats batch batchMu sendChan tickW sendW pushW logged closed writes].

Lemma run_app : forall (l1 l2 : list (action Event)) (s : state),
  run encode cap (l1 ++ l2) s =
  match run encode cap l1 s with
  | Some s1 => run encode cap l2 s1
  | None => None
  end.
Proof.
  induction l1 as [|a l1 IH]; intros l2 s; simpl.
  - reflexivity.
  - destruct (step encode cap a s); [apply IH | reflexivity].
Qed.

Lemma run_invariant : forall (P : state -> Prop),
  (forall a s s', P s -> step encode cap a s = Some s' -> P s') ->
  forall sched s s', P s -> run encode cap sched s = Some s' -> P s'.
Proof.
  intros P Hstep; induction sched as [|a rest IH]; intros s s' Hs Hrun; simpl in Hrun.
  - injection Hrun as <-; exact Hs.
  - destruct (step encode cap a s) as [s1|] eqn:E; [|discriminate].
    eapply IH; [eapply Hstep; eassumption | exact Hrun].
Qed.

Lemma lock_ok_start : forall cfg, lock_ok (start cfg : state).
Proof. intros cfg; split; reflexivity. Qed.

Lemma lock_ok_step : forall a s s',
  lock_ok s -> step encode cap a s = Some s' -> lock_ok s'.
Proof.
  intros a s s' [Hmu Hex] Hstep; unfold lock_ok, holder in *.
  open_state s; destruct a as [|r|e]; simpl in Hstep.
  - unfold tickWorker, Lock, chan_send in Hstep; simpl in Hstep.
    destruct tw; simpl in *.
    + injection Hstep as <-; simpl; auto.
    + destruct mu; [discriminate|]. injection Hstep as <-; simpl.
      destruct (push_holds pw); [discriminate | auto].
    + destruct (negb _); injection Hstep as <-; simpl; auto.
    + destruct sw, ch; try destruct (Nat.ltb _ _); try discriminate;
        injection Hstep as <-; simpl; auto.
    + injection Hstep as <-; simpl; auto.
    + injection Hstep as <-; simpl.
      rewrite Hex; auto.
  - unfold sendWorker, chan_recv in Hstep; simpl in Hstep.
    destruct sw.
    + destruct ch; [discriminate|]. injection Hstep as <-; simpl; auto.
    + destruct r; injection Hstep as <-; simpl; auto.
  - unfold Push, Lock in Hstep; simpl in Hstep.
    destruct pw; simpl in *.
    + injection Hstep as <-; simpl; auto.
    + destruct mu; [discriminate|]. injection Hstep as <-; simpl.
      destruct (tick_holds tw); [discriminate | auto].
    + injection Hstep as <-; simpl; auto.
    + injection Hstep as <-; simpl.
      rewrite Bool.andb_true_r in Hex; rewrite Hex; auto.
Qed.

Lemma reachable_lock_ok : forall cfg s,
  reachable encode cap cfg s -> lock_ok s.
Proof.
  intros cfg s [sched Hrun].
  eapply run_invariant; [apply lock_ok_step | apply (lock_ok_start cfg) | exact Hrun].
Qed.

Lemma accounted_step : forall a s s',
  accounted s -> step encode cap a s = Some s' -> accounted s'.
Proof.
  intros a s s' Hacc Hstep; unfold accounted, in_flight in *.
  open_state s; destruct a as [|r|e]; simpl in Hstep.
  - unfold tickWorker, Lock, chan_send in Hstep; simpl in Hstep.
    destruct tw; simpl in *.
    + injection Hstep as <-; simpl; auto.
    + destruct mu; [discriminate|]. injection Hstep as <-; simpl; auto.
    + destruct (negb _); injection Hstep as <-; simpl; auto.
    + destruct sw as [|b0]; [destruct ch as [|b1 q]|].
      * injection Hstep as <-; simpl. rewrite Hacc. now rewrite <- app_assoc.
      * destruct (Nat.ltb _ _); [|discriminate]. injection Hstep as <-; simpl.
        rewrite Hacc. now rewrite <- app_assoc.
      * destruct ch; simpl in Hstep;
          (destruct (Nat.ltb _ _); [|discriminate]); injection Hstep as <-; simpl;
          rewrite Hacc; rewrite <- app_assoc; reflexivity.
    + injection Hstep as <-; simpl; auto.
    + injection Hstep as <-; simpl; auto.
  - unfold sendWorker, chan_recv in Hstep; simpl in Hstep.
    destruct sw.
    + destruct ch; [discriminate|]. injection Hstep as <-; simpl; auto.
    + destruct r; injection Hstep as <-; simpl;
        rewrite Hacc, map_app, <- app_assoc; reflexivity.
  - unfold Push, Lock in Hstep; simpl in Hstep.
    destruct pw; simpl in *.
    + injection Hstep as <-; simpl; auto.
    + destruct mu; [discriminate|]. injection Hstep as <-; simpl; auto.
    + injection Hstep as <-; simpl; auto.
    + injection Hstep as <-; simpl; auto.
Qed.

Lemma reachable_accounted : forall cfg s,
  reachable encode cap cfg s -> accounted s.
Proof.
  intros cfg s [sched Hrun].
  eapply run_invariant; [apply accounted_step | | exact Hrun].
  reflexivity.
Qed.

Lemma subseq_refl : forall (A : Type) (l : list A), subseq l l.
Proof. induction l; constructor; assumption. Qed.

Lemma subseq_app_r : forall (A : Type) (xs ys zs : list A),
  subseq xs ys -> subseq xs (ys ++ zs).
Proof.
  intros A xs ys zs H; induction H; simpl.
  - induction zs; constructor; assumption.
  - constructor; assumption.
  - constructor; assumption.
Qed.

Lemma subseq_filter_map : forall (A B : Type) (f : A -> B) (p : A -> bool) (l : list A),
  subseq (map f (filter p l)) (map f l).
Proof.
  induction l as [|x l IH]; simpl.
  - constructor.
  - destruct (p x); simpl; constructor; assumption.
Qed.

(** C7: in every state the sink can reach, the calls of [Write] made so far
    were made for the batches [tickWorker] closed, in the order in which it
    closed them, one call per batch; the batch inside [Write] and the queued
    ones follow in the same order.  The batches the backend accepted are
    among them, in that order; a dropped batch is just missing. *)
Theorem batches_written_in_closing_order : forall cfg s,
  reachable encode cap cfg s ->
  closed s = map fst (writes s) ++ in_flight s /\
  subseq (delivered s) (closed s).
Proof.
  intros cfg s Hreach.
  pose proof (reachable_accounted cfg s Hreach) as Hacc; unfold accounted in Hacc.
  split; [exact Hacc|].
  rewrite Hacc; apply subseq_app_r; unfold delivered; apply subseq_filter_map.
Qed.

(** C4: when [Write] returns for the batch [b], the worker's step is always
    possible; on an error it adds one to [batchesDropped] and leaves
    [batchesSent] alone, and logs the drop; on success it adds one to
    [batchesSent] and leaves [batchesDropped] alone.  Either way the batch is
    gone (the worker is back at its receive, the channel is as it was, the
    call is recorded once), nothing [Push] uses has changed, and the
    worker's next step takes the next queued batch, if there is one. *)
Theorem sendWorker_counts_batch : forall (s : state) b r,
  sendW s = SendWrite b ->
  exists s', sendWorker r s = Some s' /\
    match r with
    | Some err =>
        batchesDropped (stats s') = (batchesDropped (stats s) + 1)%N /\
        batchesSent (stats s') = batchesSent (stats s) /\
        logged s' = logged s ++ [dropped_line (Name (config s)) err]
    | None =>
        batchesSent (stats s') = (batchesSent (stats s) + 1)%N /\
        batchesDropped (stats s') = batchesDropped (stats s) /\
        logged s' = logged s
    end /\
    eventsPushed (stats s') = eventsPushed (stats s) /\
    sendW s' = SendRecv /\ sendChan s' = sendChan s /\ in_flight s' = sendChan s /\
    writes s' = writes s ++ [(b, r)] /\ closed s' = closed s /\
    batch s' = batch s /\ batchMu s' = batchMu s /\
    pushW s' = pushW s /\ tickW s' = tickW s /\
    (forall r', sendWorker r' s' =
       match sendChan s with
       | next :: q =>
           Some (set_sendW Point Event (SendWrite next) (set_sendChan Point Event q s'))
       | [] => None
       end).
Proof.
  intros s b r Hw; open_state s; subst sw.
  unfold sendWorker; simpl.
  destruct r as [err|]; eexists; (split; [reflexivity|]); simpl;
    repeat match goal with |- _ /\ _ => split end; try reflexivity;
    intros r'; destruct ch; reflexivity.
Qed.

Lemma tickWorker_frame : forall (s s' : state),
  tickWorker cap s = Some s' ->
  stats s' = stats s /\ writes s' = writes s /\ logged s' = logged s.
Proof.
  intros s s' Hstep; open_state s.
  unfold tickWorker, Lock, chan_send in Hstep; simpl in Hstep.
  destruct tw; simpl in *.
  - injection Hstep as <-; simpl; auto.
  - destruct mu; [discriminate|]. injection Hstep as <-; simpl; auto.
  - destruct (negb _); injection Hstep as <-; simpl; auto.
  - destruct sw, ch; try destruct (Nat.ltb _ _); try discriminate;
      injection Hstep as <-; simpl; auto.
  - injection Hstep as <-; simpl; auto.
  - injection Hstep as <-; simpl; auto.
Qed.

Lemma can_send_chan_send : forall (s : state) b,
  can_send cap s = true ->
  exists s1, chan_send cap b s = Some s1 /\
    in_flight s1 = in_flight s ++ [b] /\
    stats s1 = stats s /\ writes s1 = writes s /\ closed s1 = closed s /\
    batch s1 = batch s /\ batchMu s1 = batchMu s /\ tickW s1 = tickW s /\
    pushW s1 = pushW s /\ logged s1 = logged s /\ config s1 = config s /\
    (forall b0, sendW s = SendWrite b0 ->
       sendW s1 = SendWrite b0 /\ sendChan s1 = sendChan s ++ [b]).
Proof.
  intros s b Hcan; open_state s.
  unfold can_send, chan_send, in_flight in *; simpl in *.
  destruct sw as [|b0]; [destruct ch as [|b1 q]|].
  - eexists; split; [reflexivity|]; simpl; repeat split; discriminate.
  - rewrite Hcan; eexists; split; [reflexivity|]; simpl; repeat split; discriminate.
  - assert (E : Nat.ltb (List.length ch) cap = true) by (destruct ch; exact Hcan).
    destruct ch; simpl in *; rewrite E; eexists; (split; [reflexivity|]);
      simpl; repeat split; congruence.
Qed.

(** A whole pass of [tickWorker] over a non-empty batch that the channel
    takes at once. *)
Lemma tick_pass_nonempty : forall s : state,
  tickW s = TickWait -> batchMu s = None -> batch s <> [] ->
  can_send cap s = true ->
  exists s', run encode cap (ticks 6) s = Some s' /\
    closed s' = closed s ++ [batch s] /\
    in_flight s' = in_flight s ++ [batch s] /\
    batch s' = [] /\
    stats s' = stats s /\ writes s' = writes s /\
    tickW s' = TickWait /\ batchMu s' = None /\ pushW s' = pushW s /\
    (forall b0, sendW s = SendWrite b0 ->
       sendW s' = SendWrite b0 /\ sendChan s' = sendChan s ++ [batch s]).
Proof.
  intros s Htw Hmu Hb Hcan.
  destruct (batch s) as [|p ps] eqn:Ebt; [congruence|].
  open_state s; subst tw mu bt.
  cbn.
  match goal with |- context [chan_send cap ?b ?s0] =>
    destruct (can_send_chan_send s0 b Hcan)
      as (s1 & Hsend & Hfl & Hst & Hwr & Hcl & Hbt & Hmu & Htw & Hpw & Hlg & Hcf & Hsw);
    rewrite Hsend
  end.
  cbn in *. eexists; split; [reflexivity|]; cbn.
  rewrite Hcl, Hst, Hwr, Hpw.
  repeat match goal with |- _ /\ _ => split end; try reflexivity.
  - unfold in_flight in *; cbn in *; exact Hfl.
  - intros b0 Hb0; exact (Hsw b0 Hb0).
Qed.

(** *** A pass of [tickWorker], whatever the other goroutines do *)

Lemma tick_steps_cons : forall a (l : list (action Event)),
  tick_steps (a :: l) = ((if is_tick a then 1 else 0) + tick_steps l)%nat.
Proof.
  intros a l; unfold tick_steps; cbn [filter]; destruct (is_tick a); reflexivity.
Qed.

(** An invariant indexed by the number of steps [tickWorker] has taken. *)
Lemma run_counted : forall (I : nat -> state -> Prop),
  (forall n a s s', I n s -> step encode cap a s = Some s' ->
     I (n + (if is_tick a then 1 else 0))%nat s') ->
  forall sched n s s', I n s -> run encode cap sched s = Some s' ->
    I (n + tick_steps sched)%nat s'.
Proof.
  intros I Hstep; induction sched as [|a rest IH]; intros n s s' Hs Hrun; simpl in Hrun.
  - injection Hrun as <-; unfold tick_steps; cbn [filter List.length].
    rewrite Nat.add_0_r; exact Hs.
  - destruct (step encode cap a s) as [s1|] eqn:E; [|discriminate].
    rewrite tick_steps_cons, Nat.add_assoc.
    eapply IH; [eapply Hstep; eassumption | exact Hrun].
Qed.

(** The steps of [sendWorker] and [Push] leave [tickWorker] where it is and
    hand nothing off; while [tickWorker] holds the lock they leave the
    active batch alone, and they change the counters of delivery and the
    record of [Write] calls at the return of a [Write] only. *)
Lemma other_steps_frame : forall a (s s' : state),
  is_tick a = false -> step encode cap a s = Some s' ->
  tickW s' = tickW s /\ closed s' = closed s /\
  (lock_ok s -> tick_holds (tickW s) = true -> batch s' = batch s).
Proof.
  intros a s s' Ha Hstep; unfold lock_ok, holder.
  open_state s; destruct a as [|r|e]; [discriminate| |]; simpl in Hstep.
  - unfold sendWorker, chan_recv in Hstep; simpl in Hstep.
    destruct sw.
    + destruct ch; [discriminate|]. injection Hstep as <-; simpl; auto.
    + destruct r; injection Hstep as <-; simpl; auto.
  - unfold Push, Lock in Hstep; simpl in Hstep.
    destruct pw; simpl in *.
    + injection Hstep as <-; simpl; auto.
    + destruct mu; [discriminate|]. injection Hstep as <-; simpl; auto.
    + injection Hstep as <-; simpl.
      repeat split. intros [_ Hex] Hheld; rewrite Hheld in Hex; discriminate Hex.
    + injection Hstep as <-; simpl; auto.
Qed.

Lemma delivery_frame : forall a (x x' : state),
  step encode cap a x = Some x' -> (forall r, a <> ASend r) ->
  batchesSent (stats x') = batchesSent (stats x) /\
  batchesDropped (stats x') = batchesDropped (stats x) /\
  writes x' = writes x.
Proof.
  intros a x x' Hstep Ha; destruct a as [|r|e].
  - destruct (tickWorker_frame x x' Hstep) as (Hst & Hw & _).
    rewrite Hst; auto.
  - exfalso; apply (Ha r); reflexivity.
  - open_state x; unfold Push, Lock in Hstep; simpl in Hstep.
    destruct pw; simpl in *.
    + injection Hstep as <-; simpl; auto.
    + destruct mu; [discriminate|]. injection Hstep as <-; simpl; auto.
    + injection Hstep as <-; simpl; auto.
    + injection Hstep as <-; simpl; auto.
Qed.

Lemma chan_send_blocked : forall (s : state) b,
  chan_send cap b s = None -> can_send cap s = false.
Proof.
  intros s b; open_state s; unfold chan_send, can_send; simpl.
  destruct sw, ch; try discriminate;
    destruct (Nat.ltb _ _); auto; discriminate.
Qed.

(** [tickWorker] waits for the lock and at its send, and nowhere else. *)
Lemma tickWorker_waits : forall x : state,
  tickWorker cap x = None ->
  (tickW x = TickLock /\ batchMu x <> None) \/
  (tickW x = TickSend /\ can_send cap x = false).
Proof.
  intros x H; unfold tickWorker, Lock in H.
  destruct (tickW x) eqn:Epc; try discriminate H.
  - left; split; [reflexivity|].
    destruct (batchMu x); [discriminate | discriminate H].
  - destruct (negb _); discriminate H.
  - right; split; [reflexivity|].
    destruct (chan_send cap (batch x) x) as [x1|] eqn:E; [discriminate H|].
    exact (chan_send_blocked x (batch x) E).
Qed.

Lemma before_test_step : forall c n a (s s' : state),
  before_test c n s -> step encode cap a s = Some s' ->
  before_test c (n + (if is_tick a then 1 else 0))%nat s'.
Proof.
  intros c n a s s' [Hlock Hn] Hstep.
  split; [exact (lock_ok_step a s s' Hlock Hstep)|].
  destruct (is_tick a) eqn:Ha.
  - destruct a as [|r|e]; try discriminate Ha. rewrite Nat.add_1_r.
    cbn [step] in Hstep; clear Hlock.
    destruct n as [|[|[|n]]]; [| |exact I|exact I].
    + destruct Hn as [Htw Hcl]; open_state s; subst tw cl.
      unfold tickWorker in Hstep; simpl in Hstep.
      injection Hstep as <-; simpl; auto.
    + destruct Hn as [Htw Hcl]; open_state s; subst tw cl.
      unfold tickWorker, Lock in Hstep; simpl in Hstep.
      destruct mu; [discriminate|]. injection Hstep as <-; simpl; auto.
  - rewrite Nat.add_0_r.
    destruct (other_steps_frame a s s' Ha Hstep) as (Htw & Hcl & _).
    rewrite Htw, Hcl; exact Hn.
Qed.

Lemma after_test_step : forall b c n a (s s' : state),
  after_test b c n s -> step encode cap a s = Some s' ->
  after_test b c (n + (if is_tick a then 1 else 0))%nat s'.
Proof.
  intros b c n a s s' [Hlock Hn] Hstep.
  split; [exact (lock_ok_step a s s' Hlock Hstep)|].
  destruct (is_tick a) eqn:Ha.
  - destruct a as [|r|e]; try discriminate Ha. rewrite Nat.add_1_r.
    cbn [step] in Hstep; clear Hlock.
    destruct b as [|p ps].
    + destruct n as [|[|[|n]]]; [| |exact I|exact I].
      * destruct Hn as (Htw & Hbt & Hcl); open_state s; subst tw bt cl.
        unfold tickWorker in Hstep; simpl in Hstep.
        injection Hstep as <-; simpl; auto.
      * destruct Hn as (Htw & Hbt & Hcl); open_state s; subst tw bt cl.
        unfold tickWorker in Hstep; simpl in Hstep.
        injection Hstep as <-; simpl; auto.
    + destruct n as [|[|[|[|[|n]]]]]; [| | | |exact I|exact I].
      * destruct Hn as (Htw & Hbt & Hcl); open_state s; subst tw bt cl.
        unfold tickWorker in Hstep; simpl in Hstep.
        injection Hstep as <-; simpl; auto.
      * destruct Hn as (Htw & Hbt & Hcl); open_state s; subst tw bt cl.
        unfold tickWorker, chan_send in Hstep; simpl in Hstep.
        destruct sw, ch; try destruct (Nat.ltb _ _); try discriminate;
          injection Hstep as <-; simpl; auto.
      * destruct Hn as (Htw & Hbt & Hcl); open_state s; subst tw bt cl.
        unfold tickWorker in Hstep; simpl in Hstep.
        injection Hstep as <-; simpl; auto.
      * destruct Hn as (Htw & Hbt & Hcl); open_state s; subst tw bt cl.
        unfold tickWorker in Hstep; simpl in Hstep.
        injection Hstep as <-; simpl; auto.
  - rewrite Nat.add_0_r.
    destruct (other_steps_frame a s s' Ha Hstep) as (Htw & Hcl & Hbt).
    assert (Hheld : forall pc, tickW s = pc -> tick_holds pc = true -> batch s' = batch s).
    { intros pc Hpc Hh; apply Hbt; [exact Hlock | rewrite Hpc; exact Hh]. }
    destruct b as [|p ps].
    + destruct n as [|[|[|n]]]; [| | |exact I].
      * destruct Hn as (Hpc & Hb & Hc).
        rewrite Htw, Hcl, (Hheld _ Hpc eq_refl); auto.
      * destruct Hn as (Hpc & Hb & Hc).
        rewrite Htw, Hcl, (Hheld _ Hpc eq_refl); auto.
      * destruct Hn as (Hpc & Hc). rewrite Htw, Hcl; auto.
    + destruct n as [|[|[|[|[|n]]]]]; [| | | | |exact I].
      * destruct Hn as (Hpc & Hb & Hc).
        rewrite Htw, Hcl, (Hheld _ Hpc eq_refl); auto.
      * destruct Hn as (Hpc & Hb & Hc).
        rewrite Htw, Hcl, (Hheld _ Hpc eq_refl); auto.
      * destruct Hn as (Hpc & Hb & Hc).
        rewrite Htw, Hcl, (Hheld _ Hpc eq_refl); auto.
      * destruct Hn as (Hpc & Hb & Hc).
        rewrite Htw, Hcl, (Hheld _ Hpc eq_refl); auto.
      * destruct Hn as (Hpc & Hc). rewrite Htw, Hcl; auto.
Qed.

(** With nothing on its way to the backend, and as long as [tickWorker] does
    not send, [sendWorker] has no step, and nothing changes the counters of
    delivery. *)
Lemma idle_step : forall ws sent dropped a (s s' : state),
  idle ws sent dropped s -> tickW s <> TickSend ->
  step encode cap a s = Some s' -> idle ws sent dropped s'.
Proof.
  intros ws sent dropped a s s' (Hfl & Hw & Hs & Hd) Hpc Hstep.
  unfold idle, in_flight in *.
  open_state s; destruct a as [|r|e]; simpl in Hstep.
  - unfold tickWorker, Lock in Hstep; simpl in Hstep.
    destruct tw; simpl in *; try congruence.
    + injection Hstep as <-; simpl; auto.
    + destruct mu; [discriminate|]. injection Hstep as <-; simpl; auto.
    + destruct (negb _); injection Hstep as <-; simpl; auto.
    + injection Hstep as <-; simpl; auto.
    + injection Hstep as <-; simpl; auto.
  - unfold sendWorker, chan_recv in Hstep; simpl in Hstep.
    destruct sw; [|discriminate Hfl].
    subst ch; discriminate Hstep.
  - unfold Push, Lock in Hstep; simpl in Hstep.
    destruct pw; simpl in *.
    + injection Hstep as <-; simpl; auto.
    + destruct mu; [discriminate|]. injection Hstep as <-; simpl; auto.
    + injection Hstep as <-; simpl; auto.
    + injection Hstep as <-; simpl; auto.
Qed.

Lemma before_test_idle_step : forall c ws sent dropped n a (s s' : state),
  before_test c n s /\ ((n <= 2)%nat -> idle ws sent dropped s) ->
  step encode cap a s = Some s' ->
  before_test c (n + (if is_tick a then 1 else 0))%nat s' /\
  ((n + (if is_tick a then 1 else 0) <= 2)%nat -> idle ws sent dropped s').
Proof.
  intros c ws sent dropped n a s s' [Hb Hi] Hstep.
  split; [exact (before_test_step c n a s s' Hb Hstep)|].
  intros Hle.
  assert (Hn : (n <= 2)%nat) by lia.
  apply (idle_step ws sent dropped a s s' (Hi Hn)); [|exact Hstep].
  destruct Hb as [_ Hb].
  destruct n as [|[|[|n]]]; [| | |lia]; destruct Hb as [-> _]; discriminate.
Qed.

Lemma empty_pass_idle_step : forall c ws sent dropped n a (s s' : state),
  after_test [] c n s /\ ((n <= 2)%nat -> idle ws sent dropped s) ->
  step encode cap a s = Some s' ->
  after_test [] c (n + (if is_tick a then 1 else 0))%nat s' /\
  ((n + (if is_tick a then 1 else 0) <= 2)%nat -> idle ws sent dropped s').
Proof.
  intros c ws sent dropped n a s s' [Hb Hi] Hstep.
  split; [exact (after_test_step [] c n a s s' Hb Hstep)|].
  intros Hle.
  assert (Hn : (n <= 2)%nat) by lia.
  apply (idle_step ws sent dropped a s s' (Hi Hn)); [|exact Hstep].
  destruct Hb as [_ Hb].
  destruct n as [|[|[|n]]]; [| | |lia];
    [destruct Hb as (-> & _)|destruct Hb as (-> & _)|destruct Hb as (-> & _)];
    discriminate.
Qed.

(** C5, as the code has it: for every tick of [tickWorker], whatever [Push]
    and [sendWorker] do in between and however long the worker waits for the
    lock or at its send.  From the tick to the test of the batch, two steps
    of the worker later, under the lock, nothing is handed off; and what is
    handed off is on the delivery path: written, inside [Write] or queued in
    [sendChan].  When the worker finds the batch empty, nothing is handed off
    during the rest of its pass either (two more steps); and on a sink that
    had nothing on its way to the backend at the tick, no call of [Write] is
    made and [batchesSent] and [batchesDropped] keep their values through
    the whole pass.  When it finds the batch non-empty, the worker waits at
    its send until the channel takes that very batch: once it is past the
    send the batches handed off are those of before plus this one, and its
    next step installs an empty batch, with the lock still held.  The steps
    of [tickWorker] and of [Push] never change the two counters or the
    record of [Write] calls.  And the worker can always take its next step,
    except when it waits for the lock, which another goroutine holds, or at
    its send, for the channel to take the batch. *)
Theorem tick_hands_off_nonempty_batch_only :
  forall cfg (s0 s1 s : state) (pre post : list (action Event)),
  reachable encode cap cfg s0 -> tickW s0 = TickWait ->
  run encode cap pre s0 = Some s1 -> tick_steps pre = 2%nat ->
  run encode cap post s1 = Some s ->
  tickW s1 = TickCheck /\ batchMu s1 = Some TickWorker /\ closed s1 = closed s0 /\
  closed s = map fst (writes s) ++ in_flight s /\
  (batch s1 = [] -> (tick_steps post <= 2)%nat ->
     closed s = closed s0 /\
     ((tick_steps post < 2)%nat -> batch s = [] /\ batchMu s = Some TickWorker) /\
     (tick_steps post = 2%nat -> tickW s = TickWait) /\
     (in_flight s0 = [] ->
        in_flight s = [] /\ writes s = writes s0 /\
        batchesSent (stats s) = batchesSent (stats s0) /\
        batchesDropped (stats s) = batchesDropped (stats s0))) /\
  (batch s1 <> [] ->
     ((tick_steps post <= 1)%nat -> closed s = closed s0 /\ batch s = batch s1) /\
     ((2 <= tick_steps post <= 4)%nat -> closed s = closed s0 ++ [batch s1]) /\
     (tick_steps post = 3%nat -> batch s = [] /\ batchMu s = Some TickWorker) /\
     (tick_steps post = 4%nat -> tickW s = TickWait)) /\
  (forall a (x x' : state),
     step encode cap a x = Some x' -> (forall r, a <> ASend r) ->
     batchesSent (stats x') = batchesSent (stats x) /\
     batchesDropped (stats x') = batchesDropped (stats x) /\
     writes x' = writes x) /\
  (forall x : state, tickWorker cap x = None ->
     (tickW x = TickLock /\ batchMu x <> None) \/
     (tickW x = TickSend /\ can_send cap x = false)).
Proof.
  intros cfg s0 s1 s pre post Hreach Htw0 Hpre Hn2 Hpost.
  pose proof (reachable_lock_ok cfg s0 Hreach) as Hlock0.
  (* from the tick to the test *)
  assert (H1 : before_test (closed s0) 2 s1).
  { rewrite <- Hn2.
    apply (run_counted (before_test (closed s0)) (before_test_step (closed s0))
             pre 0%nat s0 s1); [|exact Hpre].
    split; [exact Hlock0 | split; [exact Htw0 | reflexivity]]. }
  destruct H1 as [Hlock1 [Htw1 Hcl1]].
  assert (Hmu : forall x : state,
            lock_ok x -> tick_holds (tickW x) = true -> batchMu x = Some TickWorker).
  { intros x [Hx _] Hh; rewrite Hx; unfold holder; rewrite Hh; reflexivity. }
  split; [exact Htw1|].
  split; [apply Hmu; [exact Hlock1 | rewrite Htw1; reflexivity]|].
  split; [exact Hcl1|].
  split.
  { apply (reachable_accounted cfg s).
    destruct Hreach as [sched Hsched].
    exists (sched ++ pre ++ post).
    rewrite run_app, Hsched, run_app, Hpre; exact Hpost. }
  assert (H2 : after_test (batch s1) (closed s0) (tick_steps post) s).
  { apply (run_counted (after_test (batch s1) (closed s0))
             (after_test_step (batch s1) (closed s0)) post 0%nat s1 s); [|exact Hpost].
    split; [exact Hlock1|].
    destruct (batch s1); repeat split; assumption. }
  split; [|split; [|split]].
  - (* the batch is empty *)
    intros Hb Hle; rewrite Hb in H2; destruct H2 as [Hlock H2].
    split; [|split; [|split]].
    + destruct (tick_steps post) as [|[|[|n]]]; [| | |lia]; tauto.
    + intros Hlt.
      destruct (tick_steps post) as [|[|n]]; [| |lia];
        destruct H2 as (Hpc & Hbt & _);
        (split; [exact Hbt | apply Hmu; [exact Hlock | rewrite Hpc; reflexivity]]).
    + intros Heq; rewrite Heq in H2; tauto.
    + intros Hidle.
      pose (ws := writes s0). pose (a := batchesSent (stats s0)).
      pose (d := batchesDropped (stats s0)).
      assert (Hi0 : before_test (closed s0) 0 s0 /\ ((0 <= 2)%nat -> idle ws a d s0)).
      { split; [split; [exact Hlock0 | split; [exact Htw0 | reflexivity]]|].
        intros _; repeat split; assumption. }
      pose proof (run_counted
                    (fun n x => before_test (closed s0) n x /\
                                ((n <= 2)%nat -> idle ws a d x))
                    (before_test_idle_step (closed s0) ws a d) pre 0%nat s0 s1
                    Hi0 Hpre) as Hi1.
      cbv beta in Hi1; rewrite Hn2 in Hi1.
      destruct Hi1 as [_ Hi1]; specialize (Hi1 (le_n 2)).
      assert (Hi2 : after_test [] (closed s0) (tick_steps post) s /\
                    ((tick_steps post <= 2)%nat -> idle ws a d s)).
      { apply (run_counted
                 (fun n x => after_test [] (closed s0) n x /\ ((n <= 2)%nat -> idle ws a d x))
                 (empty_pass_idle_step (closed s0) ws a d) post 0%nat s1 s);
          [|exact Hpost].
        split; [|intros _; exact Hi1].
        split; [exact Hlock1 | repeat split; assumption]. }
      destruct Hi2 as [_ Hi2]; exact (Hi2 Hle).
  - (* the batch is not empty *)
    intros Hb; destruct H2 as [Hlock H2].
    destruct (batch s1) as [|p ps]; [congruence|].
    split; [|split; [|split]].
    + intros Hle. destruct (tick_steps post) as [|[|n]]; [| |lia]; tauto.
    + intros [Hge Hle].
      destruct (tick_steps post) as [|[|[|[|[|n]]]]]; try lia; tauto.
    + intros Heq; rewrite Heq in H2; destruct H2 as (Hpc & Hbt & _).
      split; [exact Hbt | apply Hmu; [exact Hlock | rewrite Hpc; reflexivity]].
    + intros Heq; rewrite Heq in H2; tauto.
  - exact delivery_frame.
  - exact tickWorker_waits.
Qed.

Lemma holder_not_SendWorker : forall s : state, holder s <> Some SendWorker.
Proof.
  intros s; unfold holder.
  destruct (tick_holds _); [discriminate|].
  destruct (push_holds _); discriminate.
Qed.

Lemma holder_TickWorker : forall s : state,
  holder s = Some TickWorker <-> tick_holds (tickW s) = true.
Proof.
  intros s; unfold holder; destruct (tick_holds _).
  - tauto.
  - destruct (push_holds _); split; discriminate.
Qed.

(** C2, as the code has it: [sendWorker] never holds [batchMu], so [Write]
    is called without it; [tickWorker] holds it from its test of the batch
    to its unlock, which includes the send on [sendChan]; while it holds the
    lock it can always go on, except at that send when the channel does not
    take the batch; and when the batch is empty or the channel takes it, the
    lock is free again after at most four of its steps. *)
Theorem lock_held_through_send : forall cfg (s : state),
  reachable encode cap cfg s ->
  batchMu s <> Some SendWorker /\
  (batchMu s = Some TickWorker <-> tick_holds (tickW s) = true) /\
  (batchMu s = Some TickWorker -> tickWorker cap s = None ->
     tickW s = TickSend /\ can_send cap s = false) /\
  (tickW s = TickCheck -> batch s = [] \/ can_send cap s = true ->
     exists n s', (n <= 4)%nat /\ run encode cap (ticks n) s = Some s' /\
       batchMu s' = None /\ tickW s' = TickWait).
Proof.
  intros cfg s Hreach.
  destruct (reachable_lock_ok cfg s Hreach) as [Hmu Hex].
  split; [|split; [|split]].
  - rewrite Hmu; apply holder_not_SendWorker.
  - rewrite Hmu; apply holder_TickWorker.
  - intros Hheld Hblocked.
    rewrite Hmu in Hheld; apply holder_TickWorker in Hheld.
    unfold tickWorker in Hblocked.
    destruct (tickW s) eqn:Etw; try discriminate.
    + destruct (negb _); discriminate.
    + split; [reflexivity|].
      destruct (chan_send cap (batch s) s) eqn:Esend; [discriminate|].
      eapply chan_send_blocked; eassumption.
  - intros Htw Hgo.
    destruct (batch s) as [|p ps] eqn:Ebt.
    + exists 2%nat, (set_tickW Point Event TickWait (Unlock (set_tickW Point Event TickUnlock s))).
      split; [lia|]. split; [|split; reflexivity].
      open_state s; subst; reflexivity.
    + destruct Hgo as [Hgo|Hcan]; [discriminate|].
      destruct (can_send_chan_send (set_tickW Point Event TickSend s) (p :: ps) Hcan)
        as (s1 & Hsend & _).
      open_state s; subst tw bt.
      exists 4%nat; eexists; split; [lia|].
      cbn; rewrite Hsend; cbn.
      split; [reflexivity|]. split; reflexivity.
Qed.

(** *** A backend that does not answer *)

Lemma first_round_quiet : forall cfg e,
  exists s, run encode cap (round e) (start cfg) = Some s /\ quiet 0 s.
Proof.
  intros cfg e; eexists; split; [vm_compute; reflexivity|].
  unfold quiet; cbn.
  repeat match goal with |- _ /\ _ => split end; try reflexivity.
  eexists; reflexivity.
Qed.

Lemma run_push_call : forall e (s : state),
  pushW s = PushIdle -> batchMu s = None ->
  run encode cap (push_call e) s =
  Some (set_stats Point Event (IncrEventsPushed (stats s))
          (set_batch Point Event (batch s ++ [encode e]) s)).
Proof.
  intros e s Hpw Hmu; open_state s; subst pw mu; reflexivity.
Qed.

Lemma next_round_quiet : forall e j (s : state),
  quiet j s -> (j < cap)%nat ->
  exists s', run encode cap (round e) s = Some s' /\ quiet (S j) s'.
Proof.
  intros e j s (Htw & Hpw & Hmu & Hbt & [b Hsw] & Hlen) Hlt.
  unfold round; rewrite run_app, (run_push_call e s Hpw Hmu).
  set (s1 := set_stats Point Event _ _).
  assert (Hcan : can_send cap s1 = true).
  { unfold can_send; subst s1; cbn. rewrite Hsw.
    assert (E : Nat.ltb (List.length (sendChan s)) cap = true)
      by (apply Nat.ltb_lt; lia).
    destruct (sendChan s); exact E. }
  destruct (tick_pass_nonempty s1)
    as (s' & Hrun & Hcl & Hfl & Hbt' & _ & _ & Htw' & Hmu' & Hpw' & Hsw');
    try (subst s1; cbn; assumption).
  { subst s1; cbn. rewrite Hbt; discriminate. }
  destruct (Hsw' b) as [Hsw1 Hch1]; [subst s1; cbn; assumption|].
  exists s'; split; [exact Hrun|].
  unfold quiet; repeat match goal with |- _ /\ _ => split end; try assumption.
  - rewrite Hpw'; subst s1; cbn; assumption.
  - exists b; assumption.
  - rewrite Hch1, length_app; subst s1; cbn. lia.
Qed.

Lemma rounds_quiet : forall e k j (s : state),
  quiet j s -> (j + k <= cap)%nat ->
  exists s', run encode cap (rounds e k) s = Some s' /\ quiet (j + k) s'.
Proof.
  intros e; induction k as [|k IH]; intros j s Hq Hle.
  - exists s; split; [reflexivity|]. now rewrite Nat.add_0_r.
  - change (rounds e (S k)) with (round e ++ rounds e k).
    destruct (next_round_quiet e j s Hq) as (s1 & Hrun1 & Hq1); [lia|].
    destruct (IH (S j) s1 Hq1) as (s2 & Hrun2 & Hq2); [lia|].
    exists s2; split.
    + rewrite run_app, Hrun1; exact Hrun2.
    + replace (j + S k)%nat with (S j + k)%nat by lia; exact Hq2.
Qed.

(** Whatever the capacity of [sendChan]: with a backend that does not answer
    the first [Write], the schedule [stall] leads to a state in which
    [tickWorker] holds the lock and waits at its send, [Push] waits for the
    lock, and the only step left to the sink is [sendWorker]'s, which is the
    return of that [Write]. *)
Lemma stall_blocks_Push : forall cfg e,
  exists (s : state) b,
    run encode cap (stall cap e) (start cfg) = Some s /\
    sendW s = SendWrite b /\ tickW s = TickSend /\
    batchMu s = Some TickWorker /\ pushW s = PushLock e /\
    (forall a s', step encode cap a s = Some s' -> exists r, a = ASend r).
Proof.
  intros cfg e.
  destruct (first_round_quiet cfg e) as (s1 & Hrun1 & Hq1).
  destruct (rounds_quiet e cap 0 s1 Hq1) as (s2 & Hrun2 & Hq2); [lia|].
  destruct Hq2 as (Htw & Hpw & Hmu & Hbt & [b Hsw] & Hlen).
  destruct s2 as [cf st bt mu ch tw sw pw lg cl wr].
  cbn in Htw, Hpw, Hmu, Hbt, Hsw, Hlen; subst tw pw mu bt sw.
  eexists; exists b; split.
  - unfold stall; change (rounds e (S cap)) with (round e ++ rounds e cap).
    rewrite <- app_assoc, run_app, Hrun1, run_app, Hrun2.
    vm_compute; reflexivity.
  - cbn. repeat match goal with |- _ /\ _ => split end; try reflexivity.
    intros a s' Hstep; destruct a as [|r|e']; cbn in Hstep.
    + unfold chan_send in Hstep; cbn -[Nat.ltb] in Hstep.
      rewrite Hlen, Nat.ltb_irrefl in Hstep.
      destruct ch; discriminate.
    + eauto.
    + discriminate.
Qed.

End InfluxFacts.

(** *** The workers on a sink of capacity one *)

Section InfluxExamples.
Import types influxdb.

(** C2, as stated, fails: with a backend that does not answer its first
    [Write], after three batches [tickWorker] holds [batchMu] and waits at
    its send, the next [Push] waits for the lock, and neither can move
    before [Write] returns. *)
Lemma Push_waits_for_Write :
  exists s b,
    run plain 1 (stall 1 7) (start SinkConfig_zero) = Some s /\
    sendW s = SendWrite b /\
    tickW s = TickSend /\ batchMu s = Some TickWorker /\ pushW s = PushLock 7 /\
    tickWorker 1 s = None /\ Push plain 7 s = None /\
    (forall a s', step plain 1 a s = Some s' -> exists r, a = ASend r).
Proof.
  destruct (stall_blocks_Push nat nat plain 1 SinkConfig_zero 7)
    as (s & b & Hrun & Hsw & Htw & Hmu & Hpw & Honly).
  exists s, b; repeat match goal with |- _ /\ _ => split end; try assumption.
  - destruct (tickWorker 1 s) as [s'|] eqn:E; [|reflexivity].
    destruct (Honly ATick s' E) as [r Hr]; discriminate Hr.
  - destruct (Push plain 7 s) as [s'|] eqn:E; [|reflexivity].
    destruct (Honly (APush 7) s' E) as [r Hr]; discriminate Hr.
Qed.

(** The lock theorem at the state [tickWorker] reaches when it has taken the
    lock of a new sink. *)
Lemma lock_example :
  exists s,
    run plain 1 (ticks 2) (start SinkConfig_zero) = Some s /\
    batchMu s = Some TickWorker /\ tickW s = TickCheck /\
    exists n s', (n <= 4)%nat /\ run plain 1 (ticks n) s = Some s' /\
      batchMu s' = None /\ tickW s' = TickWait.
Proof.
  eexists; split; [vm_compute; reflexivity|].
  split; [reflexivity|]. split; [reflexivity|].
  match goal with |- context [run plain 1 _ ?s0] =>
    destruct (lock_held_through_send nat nat plain 1 SinkConfig_zero s0) as (_ & _ & _ & Hfree)
  end.
  - exists (ticks 2); vm_compute; reflexivity.
  - apply Hfree; [reflexivity | left; reflexivity].
Defined.

(** The ordering theorem after two batches, the first dropped and the second
    accepted. *)
Lemma closing_order_example :
  exists s,
    run plain 1 (round 7 ++ [ASend (Some "down")] ++ round 8 ++ [ASend None])
        (start SinkConfig_zero) = Some s /\
    closed s = [[7]; [8]]%nat /\ delivered s = [[8]]%nat /\
    closed s = map fst (writes s) ++ in_flight s /\
    subseq (delivered s) (closed s).
Proof.
  eexists; split; [vm_compute; reflexivity|].
  split; [reflexivity|]. split; [reflexivity|].
  apply (batches_written_in_closing_order nat nat plain 1 SinkConfig_zero).
  exists (round 7 ++ [ASend (Some "down")] ++ round 8 ++ [ASend None]).
  vm_compute; reflexivity.
Defined.

(** The counting theorem at the first batch of a sink, with a backend that
    refuses it. *)
Lemma dropped_batch_example :
  exists s,
    run plain 1 (round 7) (start SinkConfig_zero) = Some s /\
    sendW s = SendWrite [7]%nat /\
    exists s',
      sendWorker (Some "down") s = Some s' /\
      batchesDropped (stats s') = 1%N /\ batchesSent (stats s') = 0%N /\
      sendW s' = SendRecv /\ sendChan s' = [] /\
      logged s' = ["InfluxDB sink '': Error writing batch: down. Batch dropped."].
Proof.
  eexists; split; [vm_compute; reflexivity|].
  split; [reflexivity|].
  match goal with |- context [sendWorker _ ?s0] =>
    destruct (sendWorker_counts_batch nat nat s0 [7]%nat (Some "down") eq_refl)
      as (s' & Hs' & (Hd & Hs & Hl) & _ & Hw & Hc & _)
  end.
  exists s'; split; [exact Hs'|].
  rewrite Hd, Hs, Hl, Hw, Hc; repeat split.
Defined.

(** C5, as stated, fails when the goroutines interleave.  The ticker fires
    on an empty batch, a call of [Push] gets the lock before the worker does,
    and the worker, once it has the lock, finds the event and hands the batch
    off in that very pass.  And a batch that is not empty is not handed off
    while the channel is full: on a sink of capacity one with two batches on
    their way, the worker gets to its send and no further. *)
Lemma empty_at_tick_still_hands_off :
  (exists s,
     batch (start SinkConfig_zero : state nat nat) = [] /\
     tickW (start SinkConfig_zero : state nat nat) = TickWait /\
     run plain 1 ([ATick] ++ push_call 7 ++ ticks 5) (start SinkConfig_zero) = Some s /\
     tick_steps ([ATick] ++ push_call 7 ++ ticks 5 : list (action nat)) = 6%nat /\
     tickW s = TickWait /\ closed s = [[7]]%nat) /\
  (exists s0 s3,
     run plain 1 (rounds 7 2 ++ push_call 7) (start SinkConfig_zero) = Some s0 /\
     tickW s0 = TickWait /\ batchMu s0 = None /\ batch s0 = [7]%nat /\
     run plain 1 (ticks 3) s0 = Some s3 /\
     tickW s3 = TickSend /\ closed s3 = closed s0 /\ tickWorker 1 s3 = None /\
     run plain 1 (ticks 6) s0 = None).
Proof.
  split.
  - eexists. split; [reflexivity|]. split; [reflexivity|].
    split; [vm_compute; reflexivity|].
    repeat split.
  - eexists; eexists. split; [vm_compute; reflexivity|].
    split; [reflexivity|]. split; [reflexivity|]. split; [reflexivity|].
    split; [vm_compute; reflexivity|].
    repeat split.
Qed.

(** The theorem on the tick's pass on a sink whose channel is full, with
    [Push] and [sendWorker] at work in between.  The tick fires while a call
    of [Push] is about to take the lock; the worker waits for the lock, finds
    the batch of two points, waits at its send until [sendWorker] has made
    room, hands that batch off and installs an empty one. *)
Lemma tick_pass_example :
  exists s0 s1 s,
    run plain 1 (rounds 7 2 ++ push_call 7) (start SinkConfig_zero) = Some s0 /\
    run plain 1 [ATick; APush 8; APush 8; APush 8; APush 8; ATick] s0 = Some s1 /\
    run plain 1 [ATick; APush 9; ASend None; ASend None; ATick; ATick] s1 = Some s /\
    tickW s0 = TickWait /\ batch s0 = [7]%nat /\ closed s0 = [[7]; [7]]%nat /\
    tickWorker 1 (set_tickW nat nat TickSend s1) = None /\
    tickW s1 = TickCheck /\ batchMu s1 = Some TickWorker /\ batch s1 = [7; 8]%nat /\
    closed s1 = closed s0 /\
    closed s = closed s0 ++ [[7; 8]%nat] /\
    batch s = [] /\ batchMu s = Some TickWorker.
Proof.
  eexists; eexists; eexists.
  split; [vm_compute; reflexivity|].
  split; [vm_compute; reflexivity|].
  split; [vm_compute; reflexivity|].
  split; [reflexivity|]. split; [reflexivity|]. split; [reflexivity|].
  split; [reflexivity|].
  match goal with |- tickW ?x1 = _ /\ _ /\ _ /\ closed _ = closed ?x0 /\ closed ?x = _ /\ _ =>
    destruct (tick_hands_off_nonempty_batch_only nat nat plain 1 SinkConfig_zero x0 x1 x
                [ATick; APush 8; APush 8; APush 8; APush 8; ATick]
                [ATick; APush 9; ASend None; ASend None; ATick; ATick])
      as (Htw & Hmu & Hcl & _ & _ & Hfull & _)
  end.
  - exists (rounds 7 2 ++ push_call 7); vm_compute; reflexivity.
  - reflexivity.
  - vm_compute; reflexivity.
  - reflexivity.
  - vm_compute; reflexivity.
  - destruct Hfull as (_ & Hoff & Hnew & _); [discriminate|].
    split; [exact Htw|]. split; [exact Hmu|]. split; [reflexivity|].
    split; [exact Hcl|].
    split; [apply Hoff; vm_compute; split; apply Nat.leb_le; reflexivity|].
    apply Hnew; reflexivity.
Defined.

End InfluxExamples.

(** ** The probe's sampling tests *)

Section ProbeFacts.
Import bpf.

Variable sample : N -> option Z -> bool.

Local Arguments Ping : simpl never.

Lemma Ping_O : forall w, Ping sample 0 w = w.
Proof. reflexivity. Qed.

Lemma Ping_S : forall n w,
  Ping sample (S n) w = Ping sample n (packet sample Ret (packet sample Orig w)).
Proof. reflexivity. Qed.

(** A packet that arrives at the time of the last report. *)
Lemma packet_now : forall d port o r t q z,
  packet sample d (mkWorld t (mkFlow port o r (Some t)) q z) =
  match d with
  | Orig => mkWorld t (mkFlow port (o + 1) r (Some t)) (q ++ emit sample port (o + 1) r) z
  | Ret => mkWorld t (mkFlow port o (r + 1) (Some t)) (q ++ emit sample port o (r + 1)) z
  end.
Proof.
  intros d port o r t q z; unfold packet, emit, elapsed, event_of; cbn.
  rewrite Z.sub_diag.
  destruct d; cbn; destruct (sample _ _); reflexivity.
Qed.

Lemma Ping_now : forall n port k t q z,
  Ping sample n (mkWorld t (mkFlow port k k (Some t)) q z) =
  mkWorld t (mkFlow port (k + N.of_nat n) (k + N.of_nat n) (Some t))
          (q ++ ping_events sample port k n) z.
Proof.
  induction n as [|n IH]; intros port k t q z.
  - cbn; rewrite N.add_0_r, app_nil_r; reflexivity.
  - rewrite Ping_S, !packet_now, IH.
    cbn [ping_events]; rewrite <- !app_assoc.
    replace (k + 1 + N.of_nat n)%N with (k + N.of_nat (S n))%N by lia.
    reflexivity.
Qed.

(** The first ping of a new flow. *)
Lemma Ping_Dial : forall port,
  Ping sample 1 (Dial port) =
  mkWorld 0
    (mkFlow port 1 1
       (if sample 2%N (if sample 1%N None then Some 0%Z else None)
        then Some 0%Z
        else if sample 1%N None then Some 0%Z else None))
    ((if sample 1%N None then [mkAcctEvent port 1 0] else []) ++
     (if sample 2%N (if sample 1%N None then Some 0%Z else None)
      then [mkAcctEvent port 1 1] else []))
    false.
Proof.
  intros port; unfold Dial; rewrite Ping_S, Ping_O.
  unfold packet, elapsed, event_of; cbn.
  destruct (sample 1%N None); reflexivity.
Qed.

(** *** What a passing run tells, statement by statement *)

Lemma act_inv : forall (B : Type) f (k : test B) w res,
  bind (act f) (fun _ => k) w = Some res -> k (f w) = Some res.
Proof. intros B f k w res H; exact H. Qed.

Lemma assert_inv : forall (B : Type) ok (k : test B) w res,
  bind (assert ok) (fun _ => k) w = Some res -> ok = true /\ k w = Some res.
Proof.
  intros B ok k w res H; unfold bind, assert, require in H.
  destruct ok; [split; [reflexivity | exact H] | discriminate].
Qed.

(** On an open [in], [filterWorker] never returns. *)
Lemma filterWorker_open : forall f inc rest,
  filterWorker f false inc <> (FilterDone, rest).
Proof.
  intros f inc rest; induction inc as [|x l IHl]; cbn; [discriminate|].
  destruct (f x); [discriminate | exact IHl].
Qed.

Lemma read_require_inv : forall (B : Type) f ms (k : AcctEvent * error -> test B) w res,
  in_closed w = false ->
  bind (readTimeout f ms)
       (fun r => bind (require (NoError (snd r))) (fun _ => k r)) w = Some res ->
  exists ev rest,
    filterWorker f false (in_chan w) = (FilterSend ev, rest) /\
    k (ev, None) (mkWorld (now w) (conn w) rest false) = Some res.
Proof.
  intros B f ms k w res Hopen H; unfold bind, readTimeout, require in H.
  rewrite Hopen in H.
  destruct (filterWorker f false (in_chan w)) as [[|ev|] rest] eqn:E; cbn in H.
  - discriminate.
  - exists ev, rest; split; [reflexivity | exact H].
  - exfalso; exact (filterWorker_open _ _ _ E).
Qed.

Lemma filterWorker_own : forall port o r q z,
  filterWorker (filterSourcePort port) z (mkAcctEvent port o r :: q) =
  (FilterSend (mkAcctEvent port o r), q).
Proof.
  intros port o r q z; cbn; unfold filterSourcePort; cbn.
  rewrite N.eqb_refl; reflexivity.
Qed.

(** Settles the producer's decision on packet [n] of a train read in [Hf],
    the next event of which has the count that [Ha] checks. *)
Ltac settle Hf Ha n :=
  let E := fresh "E" in
  destruct (sample n (Some 0%Z)) eqn:E; cbn [app] in Hf;
  [ rewrite filterWorker_own in Hf; injection Hf as <- <-;
    try (cbn in Ha; discriminate Ha)
  | try (cbn in Hf; discriminate Hf) ].

(** What the startup test fixes: whatever the producer, if
    [TestAcctProbeStartup] passes on a new flow, then a train of 32
    back-to-back packets of a new flow (no time passes, so the cooldown never
    opens) is reported at the cumulative counts 1, 2, 8 and 32, and at no
    other. *)
Lemma startup_test_fixes_burst : forall port,
  passes (TestAcctProbeStartup sample) (Dial port) = true ->
  reported_counts (Ping sample 16 (Dial port)) = [1; 2; 8; 32]%N.
Proof.
  intros port Hpass.
  unfold passes in Hpass.
  destruct (TestAcctProbeStartup sample (Dial port)) as [res|] eqn:H; [clear Hpass|discriminate].
  unfold TestAcctProbeStartup in H; cbv zeta in H.
  change (ClientPort (Dial port)) with port in H.
  (* packets 1 and 2 *)
  apply act_inv in H; rewrite Ping_Dial in H.
  apply read_require_inv in H; [|reflexivity]; destruct H as (ev1 & rest1 & Hf1 & H).
  apply read_require_inv in H; [|reflexivity]; destruct H as (ev2 & rest2 & Hf2 & H).
  cbn [in_chan now conn] in Hf1, Hf2, H.
  destruct (sample 1%N None) eqn:E1; cbn [app] in Hf1.
  2:{ destruct (sample 2%N None); cbn [app] in Hf1.
      - rewrite filterWorker_own in Hf1; injection Hf1 as <- <-; discriminate Hf2.
      - discriminate Hf1. }
  rewrite filterWorker_own in Hf1; injection Hf1 as <- <-.
  destruct (sample 2%N (Some 0%Z)) eqn:E2; [|discriminate Hf2].
  rewrite filterWorker_own in Hf2; injection Hf2 as <- <-.
  (* packet 8 *)
  apply act_inv in H; rewrite Ping_now in H.
  apply read_require_inv in H; [|reflexivity]; destruct H as (ev8 & rest8 & Hf8 & H).
  apply assert_inv in H; destruct H as [Ha8 H].
  cbn [in_chan now conn fst] in Hf8, Ha8, H.
  cbn in Hf8; unfold emit in Hf8; cbn in Hf8.
  settle Hf8 Ha8 3%N. settle Hf8 Ha8 4%N. settle Hf8 Ha8 5%N.
  settle Hf8 Ha8 6%N. settle Hf8 Ha8 7%N. settle Hf8 Ha8 8%N.
  clear Ha8.
  (* packet 32 *)
  apply act_inv in H; rewrite Ping_now in H.
  apply read_require_inv in H; [|reflexivity]; destruct H as (ev32 & rest32 & Hf32 & H).
  apply assert_inv in H; destruct H as [Ha32 H].
  cbn [in_chan now conn fst] in Hf32, Ha32, H.
  cbn in Hf32; unfold emit in Hf32; cbn in Hf32.
  settle Hf32 Ha32 9%N. settle Hf32 Ha32 10%N. settle Hf32 Ha32 11%N. settle
  Hf32 Ha32 12%N. settle Hf32 Ha32 13%N. settle Hf32 Ha32 14%N. settle Hf32
  Ha32 15%N. settle Hf32 Ha32 16%N. settle Hf32 Ha32 17%N. settle Hf32 Ha32
  18%N. settle Hf32 Ha32 19%N. settle Hf32 Ha32 20%N. settle Hf32 Ha32 21%N.
  settle Hf32 Ha32 22%N. settle Hf32 Ha32 23%N. settle Hf32 Ha32 24%N. settle
  Hf32 Ha32 25%N. settle Hf32 Ha32 26%N. settle Hf32 Ha32 27%N. settle Hf32
  Ha32 28%N. settle Hf32 Ha32 29%N. settle Hf32 Ha32 30%N. settle Hf32 Ha32
  31%N. settle Hf32 Ha32 32%N.
  clear Ha32 H.
  (* the same decisions, on a train of 32 packets *)
  change (Ping sample 16 (Dial port)) with (Ping sample 15 (Ping sample 1 (Dial port))).
  rewrite Ping_Dial, E1, E2; cbn [app].
  rewrite Ping_now; unfold reported_counts; cbn; unfold emit; cbn.
  repeat match goal with
         | Ek : sample _ _ = _ |- _ => rewrite Ek; clear Ek
         end.
  reflexivity.
Qed.

End ProbeFacts.

(** *** The cooldown gate *)

Section CooldownFacts.
Import bpf.

Variable cooldown : Z.
Variable sample : N -> option Z -> bool.
Hypothesis Hsteady : steady_state cooldown sample.

Lemma count_total : forall d f,
  (pkts_orig (count d f) + pkts_ret (count d f) = pkts_orig f + pkts_ret f + 1)%N.
Proof. intros [] f; cbn; lia. Qed.

Lemma count_last : forall d f, last (count d f) = last f.
Proof. intros [] f; reflexivity. Qed.

(** A packet of a flow that is past its burst and was last reported at [t]. *)
Lemma packet_steady : forall d w t,
  (burst_threshold <= pkts_orig (conn w) + pkts_ret (conn w))%N ->
  last (conn w) = Some t ->
  packet sample d w =
  let f := count d (conn w) in
  if (cooldown <=? now w - t)%Z
  then mkWorld (now w) (mkFlow (sport f) (pkts_orig f) (pkts_ret f) (Some (now w)))
               (in_chan w ++ [event_of f]) (in_closed w)
  else mkWorld (now w) (mkFlow (sport f) (pkts_orig f) (pkts_ret f) (Some t))
               (in_chan w) (in_closed w).
Proof.
  intros d w t Hpast Hlast; unfold packet, elapsed.
  rewrite Hlast, count_last, Hlast, Hsteady.
  - cbv zeta; destruct (cooldown <=? now w - t)%Z.
    + reflexivity.
    + rewrite app_nil_r; reflexivity.
  - rewrite count_total; unfold burst_threshold in *; lia.
Qed.

Lemma arrivals_early : forall early w t,
  (burst_threshold <= pkts_orig (conn w) + pkts_ret (conn w))%N ->
  last (conn w) = Some t ->
  Forall (fun p => (0 <= fst p)%Z) early ->
  (now w + duration early < t + cooldown)%Z ->
  in_chan (arrivals sample early w) = in_chan w /\
  last (conn (arrivals sample early w)) = Some t /\
  now (arrivals sample early w) = (now w + duration early)%Z /\
  (burst_threshold <=
   pkts_orig (conn (arrivals sample early w)) + pkts_ret (conn (arrivals sample early w)))%N.
Proof.
  induction early as [|[gap d] rest IH]; intros w t Hpast Hlast Hpos Hdur.
  - cbn; repeat split; try assumption; lia.
  - cbn [arrivals].
    apply Forall_cons_iff in Hpos; destruct Hpos as [Hgap Hrest]; cbn in Hgap.
    cbn [duration fold_right fst] in Hdur; fold (duration rest) in Hdur.
    assert (Hrest' : (0 <= duration rest)%Z).
    { clear -Hrest; induction Hrest as [|p l Hp _ IHl]; cbn; [lia|].
      fold (duration l); lia. }
    rewrite (packet_steady d (Sleep gap w) t Hpast Hlast).
    cbv zeta; cbn [Sleep now conn in_chan].
    destruct (Z.leb_spec cooldown (now w + gap - t)); [lia|].
    match goal with |- context [arrivals sample rest ?w1] =>
      destruct (IH w1 t) as (Hq & Hl & Hn & Hp)
    end; cbn [now conn in_chan pkts_orig pkts_ret last].
    + rewrite count_total; lia.
    + reflexivity.
    + exact Hrest.
    + lia.
    + cbn [now conn in_chan] in Hq, Hl, Hn, Hp.
      rewrite Hq, Hl, Hn; repeat split; try assumption.
      cbn [duration fold_right fst]; fold (duration rest); lia.
Qed.

(** C6: for a flow that is past its startup burst and was last reported at
    time [t], under a producer that follows the steady-state rule: the
    packets that arrive before [t + cooldown], however many, produce no
    Update; and the first packet that arrives once the cooldown has elapsed
    produces exactly one, which becomes the flow's last report. *)
Theorem cooldown_gates_updates : forall w t early gap d,
  (burst_threshold <= pkts_orig (conn w) + pkts_ret (conn w))%N ->
  last (conn w) = Some t ->
  Forall (fun p => (0 <= fst p)%Z) early ->
  (now w + duration early < t + cooldown)%Z ->
  (t + cooldown <= now w + duration early + gap)%Z ->
  let w1 := arrivals sample early w in
  let w2 := packet sample d (Sleep gap w1) in
  in_chan w1 = in_chan w /\
  last (conn w1) = Some t /\
  in_chan w2 = in_chan w ++ [event_of (count d (conn w1))] /\
  last (conn w2) = Some (now w + duration early + gap)%Z.
Proof.
  intros w t early gap d Hpast Hlast Hpos Hdur Hgap w1 w2.
  destruct (arrivals_early early w t Hpast Hlast Hpos Hdur) as (Hq & Hl & Hn & Hp).
  fold w1 in Hq, Hl, Hn, Hp.
  split; [exact Hq|]. split; [exact Hl|].
  subst w2; rewrite (packet_steady d (Sleep gap w1) t Hp Hl).
  cbv zeta; cbn [Sleep now conn in_chan].
  destruct (Z.leb_spec cooldown (now w1 + gap - t)); [|lia].
  cbn [in_chan conn last]; rewrite Hq, Hn; split; reflexivity.
Qed.

End CooldownFacts.

Section PolicyExamples.
Import bpf.

Lemma sample_with_steady : forall burst cooldown,
  steady_state cooldown (sample_with burst cooldown).
Proof.
  intros burst cooldown n e Hn; unfold sample_with.
  destruct (N.leb_spec n burst_threshold); [lia | reflexivity].
Qed.

(** The two tests accept the producer that reports packets 1, 2, 8 and 32
    and then follows the cooldown. *)
Example tests_accept_1_2_8_32 :
  passes (TestAcctProbeStartup (sample_1_2_8_32 cd)) (Dial 40000) = true /\
  passes (TestAcctProbeLongterm (sample_1_2_8_32 cd)) (Dial 40000) = true.
Proof. split; vm_compute; reflexivity. Qed.

(** The startup theorem at that producer. *)
Lemma startup_burst_example :
  passes (TestAcctProbeStartup (sample_1_2_8_32 cd)) (Dial 40000) = true /\
  reported_counts (Ping (sample_1_2_8_32 cd) 16 (Dial 40000)) = [1; 2; 8; 32]%N.
Proof.
  split.
  - vm_compute; reflexivity.
  - apply (startup_test_fixes_burst (sample_1_2_8_32 cd) 40000%N).
    vm_compute; reflexivity.
Defined.


(** The cooldown theorem at that producer: after the report of packet 32 at
    time 0, three packets within 19 ms are not reported, and the packet at
    20 ms is. *)
Lemma cooldown_example :
  steady_state cd (sample_1_2_8_32 cd) /\
  let w := Ping (sample_1_2_8_32 cd) 16 (Dial 40000) in
  let w1 := arrivals (sample_1_2_8_32 cd) [(5, Orig); (5, Ret); (9, Orig)]%Z w in
  reported_counts w1 = [1; 2; 8; 32]%N /\
  reported_counts (packet (sample_1_2_8_32 cd) Orig (Sleep 1 w1)) = [1; 2; 8; 32; 36]%N.
Proof.
  split; [apply sample_with_steady|].
  cbv zeta.
  destruct (cooldown_gates_updates cd (sample_1_2_8_32 cd) (sample_with_steady _ cd)
              (Ping (sample_1_2_8_32 cd) 16 (Dial 40000)) 0%Z
              [(5, Orig); (5, Ret); (9, Orig)]%Z 1%Z Orig)
    as (H1 & _ & H2 & _).
  - vm_compute; discriminate.
  - vm_compute; reflexivity.
  - repeat constructor; cbn; lia.
  - vm_compute; reflexivity.
  - vm_compute; discriminate.
  - unfold reported_counts; rewrite H1, H2; split; vm_compute; reflexivity.
Defined.

End PolicyExamples.


(* ================================================================== *)
(** * Further properties *)
(* ================================================================== *)

(** ** The Dummy sink over whole call sequences *)

Section DummyCalls.
Import types dummy.

Variable Event : Type.

Lemma run_app_calls : forall (cs1 cs2 : list (call Event)) d,
  run Event (cs1 ++ cs2) d =
  (fst (run Event cs2 (fst (run Event cs1 d))),
   snd (run Event cs1 d) ++ snd (run Event cs2 (fst (run Event cs1 d)))).
Proof.
  induction cs1 as [|c cs1 IH]; intros cs2 d; simpl.
  - destruct (run Event cs2 d); reflexivity.
  - destruct c as [sc|e|]; try apply IH.
    rewrite IH.
    destruct (run Event cs1 d) as [d1 s1]; simpl.
    destruct (run Event cs2 d1); reflexivity.
Qed.

Lemma run_stats : forall (cs : list (call Event)) d,
  stats (fst (run Event cs d)) =
  {| eventsPushed := eventsPushed (stats d) + pushes Event cs;
     batchesSent := batchesSent (stats d);
     batchesDropped := batchesDropped (stats d) + pushes Event cs |}%N.
Proof.
  induction cs as [|c cs IH]; intros d; cbn [run pushes].
  - rewrite !N.add_0_r; cbn [fst]; destruct (stats d); reflexivity.
  - destruct c as [sc|e|].
    + rewrite IH; reflexivity.
    + rewrite IH; unfold Push, IncrEventsPushed, IncrBatchDropped.
      cbn [stats eventsPushed batchesSent batchesDropped]. f_equal; lia.
    + specialize (IH d); destruct (run Event cs d); exact IH.
Qed.

(** X1: the counters of a Dummy count its calls of [Push], whatever calls of
    [Init] and [Stats] come in between: [Init] does not reset them.  A
    snapshot taken after the calls [cs] shows [pushes cs] events pushed, as
    many batches dropped, none sent, and adds itself to the snapshots taken
    before. *)
Theorem Dummy_counts_pushes : forall cs : list (call Event),
  Stats (fst (run Event cs New)) =
    {| eventsPushed := pushes Event cs; batchesSent := 0;
       batchesDropped := pushes Event cs |}%N /\
  snd (run Event (cs ++ [CallStats]) New) =
    snd (run Event cs New) ++
    [{| eventsPushed := pushes Event cs; batchesSent := 0;
        batchesDropped := pushes Event cs |}%N].
Proof.
  intros cs.
  assert (H : Stats (fst (run Event cs New)) =
              {| eventsPushed := pushes Event cs; batchesSent := 0;
                 batchesDropped := pushes Event cs |}%N).
  { unfold Stats, Get; rewrite run_stats; reflexivity. }
  split; [exact H|].
  rewrite run_app_calls; simpl; rewrite H; reflexivity.
Qed.

Lemma run_init : forall (cs : list (call Event)) d,
  init (fst (run Event cs d)) =
    match last_init Event cs None with Some _ => true | None => init d end /\
  config (fst (run Event cs d)) =
    match last_init Event cs None with Some sc => sc | None => config d end.
Proof.
  assert (Hsome : forall (cs : list (call Event)) sc,
             last_init Event cs (Some sc) =
             match last_init Event cs None with Some sc' => Some sc' | None => Some sc end).
  { induction cs as [|c cs IH]; intros sc; simpl; [reflexivity|].
    destruct c as [sc'|e|]; try apply IH.
    rewrite (IH sc'). destruct (last_init Event cs None) eqn:E; [reflexivity|].
    reflexivity. }
  induction cs as [|c cs IH]; intros d; cbn [run last_init].
  - split; reflexivity.
  - destruct c as [sc|e|].
    + rewrite Hsome. destruct (IH (fst (Init sc d))) as [H1 H2].
      rewrite H1, H2; destruct (last_init Event cs None); split; reflexivity.
    + apply (IH (Push Event e d)).
    + specialize (IH d); destruct (run Event cs d); exact IH.
Qed.

(** X2: [Init] may be called again and again: after any calls, the sink is
    initialised exactly when one of them was a call of [Init], and its name
    and configuration are those of the last such call (the zero
    configuration, with the empty name, when there was none); calls of [Push]
    and [Stats] never change either. *)
Theorem Dummy_last_Init_wins : forall cs : list (call Event),
  IsInit (fst (run Event cs New)) =
    match last_init Event cs None with Some _ => true | None => false end /\
  config (fst (run Event cs New)) =
    match last_init Event cs None with Some sc => sc | None => SinkConfig_zero end /\
  Name_ (fst (run Event cs New)) =
    match last_init Event cs None with Some sc => Name sc | None => "" end.
Proof.
  intros cs; destruct (run_init cs New) as [H1 H2].
  unfold IsInit, Name_; rewrite H1, H2.
  destruct (last_init Event cs None); repeat split.
Qed.

End DummyCalls.


(** ** The workers' bookkeeping *)

Section InfluxBookkeeping.
Import types influxdb.

Variable Point : Type.
Variable Event : Type.
Variable encode : Event -> Point.
Variable cap : nat.

Abbreviation state := (influxdb.state Point Event).

Ltac fields s :=
  destruct s as [cf st bt mu ch tw sw pw lg cl wr]; simpl in *.

Ltac norm_state :=
  cbv [set_stats set_batch set_batchMu set_sendChan set_tickW set_sendW set_pushW
       set_logged set_closed set_writes Unlock newBatch
       config stats batch batchMu sendChan tickW sendW pushW logged closed writes].

(** The cases of a step of [tickWorker] in [H]. *)
Ltac tick_cases H :=
  unfold tickWorker, Lock, chan_send in H; simpl in H;
  match type of H with
  | context [match ?tw with TickWait => _ | _ => _ end] => destruct tw
  end; simpl in H.

Lemma nonempty_step : forall a (s s' : state),
  Forall (fun b => b <> []) (closed s) /\ (tickW s = TickSend -> batch s <> []) ->
  step encode cap a s = Some s' ->
  Forall (fun b => b <> []) (closed s') /\ (tickW s' = TickSend -> batch s' <> []).
Proof.
  intros a s s' [Hcl Hbt] Hstep.
  fields s; destruct a as [|r|e]; simpl in Hstep.
  - tick_cases Hstep.
    + injection Hstep as <-; simpl; split; [assumption|discriminate].
    + destruct mu; [discriminate|]; injection Hstep as <-; simpl.
      split; [assumption|discriminate].
    + destruct bt as [|p ps]; simpl in Hstep; injection Hstep as <-; simpl;
        (split; [assumption|]); discriminate.
    + specialize (Hbt eq_refl).
      assert (Hcl' : Forall (fun b : Batch Point => b <> []) (cl ++ [bt])).
      { apply Forall_app; split; [assumption|]. constructor; [assumption|constructor]. }
      destruct sw, ch; try destruct (Nat.ltb _ _); try discriminate;
        injection Hstep as <-; simpl; (split; [assumption|discriminate]).
    + injection Hstep as <-; simpl; split; [assumption|discriminate].
    + injection Hstep as <-; simpl; split; [assumption|discriminate].
  - unfold sendWorker, chan_recv in Hstep; simpl in Hstep.
    destruct sw.
    + destruct ch; [discriminate|]. injection Hstep as <-; simpl; auto.
    + destruct r; injection Hstep as <-; simpl; auto.
  - unfold Push, Lock in Hstep; simpl in Hstep.
    destruct pw; simpl in *.
    + injection Hstep as <-; simpl; auto.
    + destruct mu; [discriminate|]. injection Hstep as <-; simpl; auto.
    + injection Hstep as <-; simpl; split; [assumption|].
      intros _ Hnil; apply app_eq_nil in Hnil; destruct Hnil; discriminate.
    + injection Hstep as <-; simpl; auto.
Qed.

(** X3: [tickWorker] never hands off an empty batch, so the channel never carries
    one and [Write] is never called with one: in every state the sink can
    reach, the batches closed, those on their way and those written are all
    non-empty. *)
Theorem Write_never_gets_empty_batch : forall cfg (s : state),
  reachable encode cap cfg s ->
  Forall (fun b => b <> []) (closed s) /\
  Forall (fun b => b <> []) (in_flight s) /\
  Forall (fun w => fst w <> []) (writes s).
Proof.
  intros cfg s Hreach.
  assert (Hcl : Forall (fun b : Batch Point => b <> []) (closed s)).
  { destruct Hreach as [sched Hrun].
    apply (run_invariant Point Event encode cap
             (fun s => Forall (fun b => b <> []) (closed s) /\
                       (tickW s = TickSend -> batch s <> []))
             nonempty_step sched (start cfg) s); [|exact Hrun].
    split; [constructor|discriminate]. }
  split; [exact Hcl|].
  rewrite (reachable_accounted Point Event encode cap cfg s Hreach) in Hcl.
  apply Forall_app in Hcl; destruct Hcl as [Hw Hf].
  split; [exact Hf|].
  rewrite Forall_map in Hw; exact Hw.
Qed.

(** What the counters and the log say about the calls of [Write]. *)
Lemma ledger_step : forall cfg a (s s' : state),
  (config s = cfg /\
   batchesSent (stats s) = N.of_nat (List.length (delivered s)) /\
   batchesDropped (stats s) = N.of_nat (List.length (filter failed (writes s))) /\
   (batchesSent (stats s) + batchesDropped (stats s) =
    N.of_nat (List.length (writes s)))%N /\
   logged s = drop_log (Name cfg) (writes s)) ->
  step encode cap a s = Some s' ->
  (config s' = cfg /\
   batchesSent (stats s') = N.of_nat (List.length (delivered s')) /\
   batchesDropped (stats s') = N.of_nat (List.length (filter failed (writes s'))) /\
   (batchesSent (stats s') + batchesDropped (stats s') =
    N.of_nat (List.length (writes s')))%N /\
   logged s' = drop_log (Name cfg) (writes s')).
Proof.
  intros cfg a s s' (Hcf & Hsent & Hdrop & Hsum & Hlog) Hstep.
  unfold delivered in *.
  fields s; destruct a as [|r|e]; simpl in Hstep.
  - tick_cases Hstep.
    + injection Hstep as <-; simpl; auto.
    + destruct mu; [discriminate|]; injection Hstep as <-; simpl; auto.
    + destruct (negb _); injection Hstep as <-; simpl; auto.
    + destruct sw, ch; try destruct (Nat.ltb _ _); try discriminate;
        injection Hstep as <-; simpl; auto.
    + injection Hstep as <-; simpl; auto.
    + injection Hstep as <-; simpl; auto.
  - unfold sendWorker, chan_recv in Hstep; simpl in Hstep.
    destruct sw as [|b].
    + destruct ch; [discriminate|]. injection Hstep as <-; simpl; auto.
    + destruct r as [err|]; injection Hstep as <-; simpl;
        unfold drop_log; rewrite !filter_app, !flat_map_app, !length_app, ?map_app;
        simpl; rewrite ?length_app, ?app_nil_r, ?Nat.add_0_r; simpl;
        subst cf; repeat split; try assumption;
        try (rewrite Nat2N.inj_add, ?Hsent, ?Hdrop; reflexivity);
        try (rewrite ?Nat2N.inj_add; change (N.of_nat 1) with 1%N; lia);
        try (rewrite Hlog; reflexivity).
  - unfold Push, Lock in Hstep; simpl in Hstep.
    destruct pw; simpl in *.
    + injection Hstep as <-; simpl; auto.
    + destruct mu; [discriminate|]. injection Hstep as <-; simpl; auto.
    + injection Hstep as <-; simpl; auto.
    + injection Hstep as <-; simpl; auto.
Qed.

(** X4: the counters and the log account for the calls of [Write], one for one:
    in every state the sink can reach, [batchesSent] is the number of calls
    that succeeded, [batchesDropped] the number that failed, their sum the
    number of calls made, and the log holds one line per failed call, in
    order, with the sink's name and the call's error. *)
Theorem counters_match_Write_calls : forall cfg (s : state),
  reachable encode cap cfg s ->
  config s = cfg /\
  batchesSent (stats s) = N.of_nat (List.length (delivered s)) /\
  batchesDropped (stats s) = N.of_nat (List.length (filter failed (writes s))) /\
  (batchesSent (stats s) + batchesDropped (stats s) =
   N.of_nat (List.length (writes s)))%N /\
  logged s = drop_log (Name cfg) (writes s).
Proof.
  intros cfg s [sched Hrun].
  apply (run_invariant Point Event encode cap _ (ledger_step cfg) sched (start cfg) s);
    [|exact Hrun].
  repeat split.
Qed.

Lemma chan_send_capacity : forall b (s s1 : state),
  chan_send cap b s = Some s1 ->
  (List.length (sendChan s) <= cap)%nat ->
  (List.length (sendChan s1) <= cap)%nat.
Proof.
  intros b s s1 Hsend Hcap; revert Hsend.
  destruct s as [cf st bt mu ch tw sw pw lg cl wr].
  unfold chan_send; cbn [sendW sendChan] in *.
  destruct sw as [|b0]; [destruct ch as [|b1 q]|].
  - intros Hs; injection Hs as <-; exact Hcap.
  - destruct (Nat.ltb_spec (List.length (b1 :: q)) cap) as [Hlt|Hge]; [|discriminate].
    intros Hs; injection Hs as <-; simpl.
    rewrite ?length_app; simpl in *; lia.
  - destruct ch as [|b1 q];
      (match goal with |- context [Nat.ltb ?a cap] => destruct (Nat.ltb_spec a cap) as [Hlt|Hge] end;
       [|discriminate]);
      intros Hs; injection Hs as <-; simpl;
      rewrite ?length_app; simpl in *; lia.
Qed.

Lemma capacity_step : forall a (s s' : state),
  (List.length (sendChan s) <= cap)%nat ->
  step encode cap a s = Some s' ->
  (List.length (sendChan s') <= cap)%nat.
Proof.
  intros a s s' Hcap Hstep.
  destruct a as [|r|e]; simpl in Hstep.
  - unfold tickWorker in Hstep.
    destruct (tickW s); try (injection Hstep as <-; exact Hcap).
    + unfold Lock in Hstep; destruct (batchMu s); [discriminate|].
      injection Hstep as <-; exact Hcap.
    + destruct (negb _); injection Hstep as <-; exact Hcap.
    + destruct (chan_send cap (batch s) s) as [s1|] eqn:E; [|discriminate].
      injection Hstep as <-.
      apply (chan_send_capacity _ _ _ E Hcap).
  - fields s. unfold sendWorker, chan_recv in Hstep; simpl in Hstep.
    destruct sw.
    + destruct ch; [discriminate|]. injection Hstep as <-; simpl in *; lia.
    + destruct r; injection Hstep as <-; simpl; auto.
  - fields s. unfold Push, Lock in Hstep; simpl in Hstep.
    destruct pw; simpl in *.
    + injection Hstep as <-; simpl; auto.
    + destruct mu; [discriminate|]. injection Hstep as <-; simpl; auto.
    + injection Hstep as <-; simpl; auto.
    + injection Hstep as <-; simpl; auto.
Qed.

(** X5: in every state the sink can reach, [sendChan] holds no more batches
    than its capacity.  A [tickWorker] that waits at its send finds it full
    and waits for [sendWorker] alone: whatever [Write] returns, one or two
    steps of [sendWorker] (the return of [Write], the next receive) let the
    send go through; and no step of [Push] does. *)
Theorem stalled_send_waits_for_sendWorker : forall cfg (s : state) r,
  reachable encode cap cfg s ->
  (List.length (sendChan s) <= cap)%nat /\
  (tickW s = TickSend -> tickWorker cap s = None ->
   List.length (sendChan s) = cap /\
   (exists n s1 s2,
       (1 <= n <= 2)%nat /\
       run encode cap (repeat (ASend r) n) s = Some s1 /\
       tickWorker cap s1 = Some s2) /\
   (forall e s1, Push encode e s = Some s1 -> tickWorker cap s1 = None)).
Proof.
  intros cfg s r [sched Hrun].
  assert (Hcap : (List.length (sendChan s) <= cap)%nat).
  { apply (run_invariant Point Event encode cap
             (fun s => (List.length (sendChan s) <= cap)%nat)
             capacity_step sched (start cfg) s); [simpl; lia | exact Hrun]. }
  split; [exact Hcap|]. intros Htw Hblocked.
  clear Hrun sched.
  assert (Hsend : chan_send cap (batch s) s = None).
  { unfold tickWorker in Hblocked; rewrite Htw in Hblocked.
    destruct (chan_send cap (batch s) s); [discriminate | reflexivity]. }
  clear Hblocked.
  destruct s as [cf st bt mu ch tw sw pw lg cl wr].
  cbn [tickW sendChan batch] in *; subst tw.
  unfold chan_send in Hsend; cbn [sendW sendChan] in Hsend.
  assert (Hfull : List.length ch = cap /\ (sw = SendRecv -> ch <> [])).
  { destruct sw as [|b0]; [destruct ch as [|b1 q]; [discriminate|]|].
    - destruct (Nat.ltb_spec (List.length (b1 :: q)) cap) as [Hlt|Hge];
        [discriminate|].
      split; [lia|discriminate].
    - split; [|discriminate].
      destruct ch as [|b1 q];
        match type of Hsend with context [Nat.ltb ?a cap] =>
          destruct (Nat.ltb_spec a cap) as [Hlt|Hge] end;
        try discriminate; lia. }
  clear Hsend; destruct Hfull as [Hlen Hne].
  assert (Hroom : forall b1 q, ch = b1 :: q -> Nat.ltb (List.length q) cap = true).
  { intros b1 q ->; apply Nat.ltb_lt; simpl in Hlen; lia. }
  split; [exact Hlen|].
  split.
  - destruct sw as [|b0].
    + (* the worker is at its receive: the channel is full, one receive *)
      destruct ch as [|b1 q]; [exfalso; apply Hne; reflexivity|].
      exists 1%nat; eexists; eexists; split; [lia|].
      split; [cbn; norm_state; reflexivity|].
      unfold tickWorker, chan_send; cbn [tickW sendW sendChan batch].
      rewrite (Hroom b1 q eq_refl); destruct q; reflexivity.
    + (* the worker is inside Write *)
      destruct r as [err|]; destruct ch as [|b1 q];
        [ exists 1%nat | exists 2%nat | exists 1%nat | exists 2%nat ];
        eexists; eexists; (split; [lia|]);
        (split; [cbn; norm_state; reflexivity|]);
        try reflexivity;
        unfold tickWorker, chan_send; cbn [tickW sendW sendChan batch];
        rewrite (Hroom b1 q eq_refl); destruct q; reflexivity.
  - intros e s1 Hpush.
    assert (Hsame : tickW s1 = TickSend /\ sendW s1 = sw /\ sendChan s1 = ch).
    { unfold Push, Lock in Hpush; cbn [pushW batchMu] in Hpush.
      destruct pw; try (destruct mu; [discriminate|]);
        injection Hpush as <-; repeat split. }
    destruct Hsame as (Ht & Hs & Hc).
    unfold tickWorker, chan_send; rewrite Ht, Hs, Hc.
    assert (Hno : Nat.ltb (List.length ch) cap = false)
      by (apply Nat.ltb_ge; lia).
    destruct sw as [|b0]; [destruct ch as [|b1 q]; [exfalso; apply Hne; reflexivity|]|].
    + rewrite Hno; reflexivity.
    + destruct ch; rewrite Hno; reflexivity.
Qed.

End InfluxBookkeeping.

(** *** The bookkeeping on a sink of capacity one *)

Section BookkeepingExamples.
Import types influxdb.

(** The theorem on empty batches after two batches, the first written and
    the second queued. *)
Lemma nonempty_batches_example :
  exists s,
    run plain 1 (round 7 ++ round 8 ++ [ASend None]) (start SinkConfig_zero) = Some s /\
    closed s = [[7]; [8]]%nat /\ in_flight s = [[8]]%nat /\
    Forall (fun b => b <> []) (closed s) /\
    Forall (fun b => b <> []) (in_flight s) /\
    Forall (fun w => fst w <> []) (writes s).
Proof.
  eexists; split; [vm_compute; reflexivity|].
  split; [reflexivity|]. split; [reflexivity|].
  apply (Write_never_gets_empty_batch nat nat plain 1 SinkConfig_zero).
  exists (round 7 ++ round 8 ++ [ASend None]).
  vm_compute; reflexivity.
Defined.

(** The theorem on the counters after three batches, of which the backend
    refused the first and the third. *)
Lemma counters_example :
  exists s,
    run plain 1
        (round 7 ++ [ASend (Some "down")] ++ round 8 ++ [ASend None] ++
         round 9 ++ [ASend (Some "busy")])
        (start SinkConfig_zero) = Some s /\
    batchesSent (stats s) = 1%N /\ batchesDropped (stats s) = 2%N /\
    config s = SinkConfig_zero /\
    batchesSent (stats s) = N.of_nat (List.length (delivered s)) /\
    batchesDropped (stats s) = N.of_nat (List.length (filter failed (writes s))) /\
    (batchesSent (stats s) + batchesDropped (stats s) =
     N.of_nat (List.length (writes s)))%N /\
    logged s = drop_log (Name SinkConfig_zero) (writes s).
Proof.
  eexists; split; [vm_compute; reflexivity|].
  split; [reflexivity|]. split; [reflexivity|].
  apply (counters_match_Write_calls nat nat plain 1 SinkConfig_zero).
  exists (round 7 ++ [ASend (Some "down")] ++ round 8 ++ [ASend None] ++
          round 9 ++ [ASend (Some "busy")]).
  vm_compute; reflexivity.
Defined.

(** The theorem on the stalled send at the state in which [tickWorker]
    waits with a third batch, the first being inside [Write] and the second
    queued. *)
Lemma stalled_send_example :
  exists s,
    run plain 1 (rounds 7 2 ++ push_call 7 ++ ticks 3) (start SinkConfig_zero) = Some s /\
    tickW s = TickSend /\ tickWorker 1 s = None /\
    (List.length (sendChan s) <= 1)%nat /\
    List.length (sendChan s) = 1%nat /\
    (exists n s1 s2,
        (1 <= n <= 2)%nat /\
        run plain 1 (repeat (ASend None) n) s = Some s1 /\
        tickWorker 1 s1 = Some s2) /\
    (forall e s1, Push plain e s = Some s1 -> tickWorker 1 s1 = None).
Proof.
  eexists; split; [vm_compute; reflexivity|].
  split; [reflexivity|]. split; [reflexivity|].
  match goal with |- (List.length (sendChan ?s0) <= 1)%nat /\ _ =>
    destruct (stalled_send_waits_for_sendWorker nat nat plain 1 SinkConfig_zero s0 None)
      as [Hcap Hstalled]
  end.
  - exists (rounds 7 2 ++ push_call 7 ++ ticks 3); vm_compute; reflexivity.
  - split; [exact Hcap|]. apply Hstalled; reflexivity.
Defined.

End BookkeepingExamples.


(** ** Reading the filtered channel *)

Section FilterFacts.
Import bpf.

(** What [filterWorker] has done when it can go no further. *)
Lemma filterWorker_split : forall f z inc,
  match filterWorker f z inc with
  | (FilterSend ev, rest) =>
      exists skipped,
        inc = skipped ++ ev :: rest /\ f ev = true /\
        Forall (fun x => f x = false) skipped
  | (FilterRecv, rest) =>
      z = false /\ rest = [] /\ Forall (fun x => f x = false) inc
  | (FilterDone, rest) =>
      z = true /\ rest = [] /\ Forall (fun x => f x = false) inc
  end.
Proof.
  intros f z; induction inc as [|x inc IH]; cbn [filterWorker].
  - destruct z; repeat split; constructor.
  - destruct (f x) eqn:Ex.
    + exists []; repeat split; [exact Ex | constructor].
    + destruct (filterWorker f z inc) as [[|ev|] rest].
      * destruct IH as (Hz & Hrest & Hall); repeat split; try assumption.
        constructor; assumption.
      * destruct IH as (skipped & -> & Hev & Hsk).
        exists (x :: skipped); repeat split; [exact Hev | constructor; assumption].
      * destruct IH as (Hz & Hrest & Hall); repeat split; try assumption.
        constructor; assumption.
Qed.








End FilterFacts.

Section FilterExamples.
Import bpf.



End FilterExamples.

(** ** What the two sampling tests accept *)

Section TestFacts.
Import bpf.

Variable sample : N -> option Z -> bool.

Local Arguments Ping : simpl never.

(** *** Running a test forwards *)

Lemma bind_act : forall (B : Type) f (k : unit -> test B) w,
  bind (act f) k w = k tt (f w).
Proof. reflexivity. Qed.

Lemma bind_require_true : forall (B : Type) (k : unit -> test B) w,
  bind (require true) k w = k tt w.
Proof. reflexivity. Qed.

Lemma bind_value : forall (A B : Type) (m : test A) (k : A -> test B) w a w1,
  m w = Some (a, w1) -> bind m k w = k a w1.
Proof. intros A B m k w a w1 H; unfold bind; rewrite H; reflexivity. Qed.

Lemma bind_inv : forall (A B : Type) (m : test A) (k : A -> test B) w res,
  bind m k w = Some res -> exists a w1, m w = Some (a, w1) /\ k a w1 = Some res.
Proof.
  intros A B m k w res H; unfold bind in H.
  destruct (m w) as [[a w1]|]; [|discriminate].
  exists a, w1; split; [reflexivity | exact H].
Qed.

Lemma filterWorker_own_list : forall port q,
  Forall (own port) q ->
  filterWorker (filterSourcePort port) false q =
  match q with
  | [] => (FilterRecv, [])
  | ev :: rest => (FilterSend ev, rest)
  end.
Proof.
  intros port q Hq; destruct Hq as [|ev rest Hev _]; [reflexivity|].
  cbn; unfold filterSourcePort, own in *; rewrite Hev, N.eqb_refl; reflexivity.
Qed.

Lemma bind_read_own : forall (B : Type) port ms (k : AcctEvent * error -> test B) t c ev q z,
  own port ev ->
  bind (readTimeout (filterSourcePort port) ms) k (mkWorld t c (ev :: q) z) =
  k (ev, None) (mkWorld t c q z).
Proof.
  intros B port ms k t c ev q z Hev; unfold bind, readTimeout.
  cbn [in_chan now conn in_closed].
  cbn [filterWorker].
  assert (E : filterSourcePort port ev = true).
  { unfold filterSourcePort, own in *; rewrite Hev, N.eqb_refl; reflexivity. }
  rewrite E; reflexivity.
Qed.

Lemma bind_read_timeout : forall (B : Type) f ms (k : AcctEvent * error -> test B) t c,
  bind (readTimeout f ms) k (mkWorld t c [] false) =
  k (AcctEvent_zero, Some errChanTimeout) (mkWorld (t + ms) c [] false).
Proof. reflexivity. Qed.

Lemma read_timeout_inv : forall (B : Type) f ms (k : test B) w res,
  in_closed w = false ->
  bind (readTimeout f ms)
       (fun r => bind (assert (EqualError (snd r) "timeout")) (fun _ => k)) w = Some res ->
  fst (filterWorker f false (in_chan w)) = FilterRecv /\
  k (mkWorld (now w + ms) (conn w) [] false) = Some res.
Proof.
  intros B f ms k w res Hopen H; unfold bind, readTimeout in H.
  rewrite Hopen in H.
  pose proof (filterWorker_split f false (in_chan w)) as Hs.
  destruct (filterWorker f false (in_chan w)) as [[|ev|] rest]; cbn in H.
  - destruct Hs as (_ & -> & _); split; [reflexivity | exact H].
  - discriminate.
  - discriminate.
Qed.

Lemma read_events_own : forall port n evs q t c z,
  List.length evs = n -> Forall (own port) evs ->
  read_events (filterSourcePort port) n (mkWorld t c (evs ++ q) z) =
  Some (tt, mkWorld t c q z).
Proof.
  intros port; induction n as [|n IH]; intros evs q t c z Hlen Hown.
  - destruct evs; [reflexivity | discriminate].
  - destruct evs as [|ev evs]; [discriminate|].
    apply Forall_cons_iff in Hown; destruct Hown as [Hev Hown].
    cbn [read_events app].
    rewrite (bind_read_own _ port 10 _ t c ev (evs ++ q) z Hev).
    cbn [snd NoError]; unfold assert; rewrite bind_require_true.
    apply IH; [simpl in Hlen; lia | exact Hown].
Qed.

Lemma read_events_inv : forall port n w a w1,
  in_closed w = false ->
  Forall (own port) (in_chan w) ->
  read_events (filterSourcePort port) n w = Some (a, w1) ->
  exists evs,
    List.length evs = n /\ in_chan w = evs ++ in_chan w1 /\
    now w1 = now w /\ conn w1 = conn w /\ in_closed w1 = false.
Proof.
  intros port; induction n as [|n IH]; intros w a w1 Hopen Hown H.
  - cbn in H; injection H as _ <-; exists []; repeat split; exact Hopen.
  - cbn [read_events] in H; unfold assert in H.
    apply read_require_inv in H; [|exact Hopen]; destruct H as (ev & rest & Hf & H).
    rewrite (filterWorker_own_list port _ Hown) in Hf.
    destruct (in_chan w) as [|ev' rest'] eqn:Ein; [discriminate|].
    injection Hf as -> ->.
    apply Forall_cons_iff in Hown; destruct Hown as [_ Hown].
    destruct (IH (mkWorld (now w) (conn w) rest false) a w1 eq_refl Hown H)
      as (evs & Hlen & Hin & Hnow & Hconn & Hopen1).
    cbn [in_chan now conn] in Hin, Hnow, Hconn.
    exists (ev :: evs); cbn [List.length app]; rewrite Hlen, <- Hin.
    repeat split; assumption.
Qed.

(** *** The worlds the tests go through *)

Lemma packet_shape : forall d port o r L q z,
  Forall (own port) q ->
  (L = None /\ q = []) \/ (L = Some 0%Z /\ q <> []) ->
  exists L' q',
    packet sample d (mkWorld 0 (mkFlow port o r L) q z) =
    mkWorld 0
      (match d with
       | Orig => mkFlow port (o + 1) r L'
       | Ret => mkFlow port o (r + 1) L'
       end) q' z /\
    Forall (own port) q' /\
    ((L' = None /\ q' = []) \/ (L' = Some 0%Z /\ q' <> [])).
Proof.
  intros d port o r L q z Hown HL; unfold packet.
  destruct d; cbn [count conn now in_chan in_closed sport pkts_orig pkts_ret last];
    destruct (sample _ _);
    eexists; eexists; (split; [reflexivity|]); split;
    try (rewrite app_nil_r; assumption);
    try (apply Forall_app; split; [assumption|];
         constructor; [reflexivity | constructor]);
    try (right; split; [reflexivity|];
         intros Hnil; apply app_eq_nil in Hnil; destruct Hnil; discriminate);
    rewrite app_nil_r; assumption.
Qed.

Lemma Ping_shape : forall n port o r L q z,
  Forall (own port) q ->
  (L = None /\ q = []) \/ (L = Some 0%Z /\ q <> []) ->
  exists L' q',
    Ping sample n (mkWorld 0 (mkFlow port o r L) q z) =
    mkWorld 0 (mkFlow port (o + N.of_nat n) (r + N.of_nat n) L') q' z /\
    Forall (own port) q' /\
    ((L' = None /\ q' = []) \/ (L' = Some 0%Z /\ q' <> [])).
Proof.
  induction n as [|n IH]; intros port o r L q z Hown HL.
  - exists L, q; cbn [N.of_nat]; rewrite !N.add_0_r; repeat split; assumption.
  - change (Ping sample (S n) ?w) with
      (Ping sample n (packet sample Ret (packet sample Orig w))).
    destruct (packet_shape Orig port o r L q z Hown HL) as (L1 & q1 & -> & Hown1 & HL1).
    destruct (packet_shape Ret port (o + 1) r L1 q1 z Hown1 HL1) as (L2 & q2 & -> & Hown2 & HL2).
    destruct (IH port (o + 1)%N (r + 1)%N L2 q2 z Hown2 HL2) as (L3 & q3 & -> & Hown3 & HL3).
    exists L3, q3; split; [|split; assumption].
    replace (o + 1 + N.of_nat n)%N with (o + N.of_nat (S n))%N by lia.
    replace (r + 1 + N.of_nat n)%N with (r + N.of_nat (S n))%N by lia.
    reflexivity.
Qed.

(** One one-way packet after a sleep, on an emptied channel. *)
Lemma Nop_after_Sleep : forall port o r t0 t gap z,
  Nop sample 1 (Sleep gap (mkWorld t (mkFlow port o r (Some t0)) [] z)) =
  mkWorld (t + gap)
    (mkFlow port (o + 1) r
       (if sample (o + 1 + r)%N (Some (t + gap - t0)%Z) then Some (t + gap)%Z else Some t0))
    (if sample (o + 1 + r)%N (Some (t + gap - t0)%Z)
     then [mkAcctEvent port (o + 1) r] else [])
    z.
Proof.
  intros port o r t0 t gap z; cbn [Nop]; unfold Sleep, packet, elapsed, event_of.
  cbn [count conn now in_chan in_closed sport pkts_orig pkts_ret last app].
  reflexivity.
Qed.

Lemma longterm_test_needs : forall port,
  passes (TestAcctProbeLongterm sample) (Dial port) = true ->
  List.length (reported_counts (Ping sample 16 (Dial port))) = 4%nat /\
  sample 33%N (Some 40%Z) = true /\ sample 34%N (Some 20%Z) = true.
Proof.
  intros port.
  destruct (Ping_shape 16 port 0 0 None [] false (Forall_nil _)
              (or_introl (conj eq_refl eq_refl)))
    as (L & q & HW & Hown & HL).
  change (0 + N.of_nat 16)%N with 16%N in HW.
  fold (Dial port) in HW.
  unfold reported_counts; rewrite HW; cbn [in_chan]; rewrite length_map.
  unfold passes.
  (* what a passing run tells *)
  eassert (E : TestAcctProbeLongterm sample (Dial port) = _).
  { unfold TestAcctProbeLongterm; cbv zeta.
    change (ClientPort (Dial port)) with port.
    rewrite bind_act, HW; cbv beta. reflexivity. }
  destruct (TestAcctProbeLongterm sample (Dial port)) as [res|] eqn:H; [intros _|discriminate].
  clear H; symmetry in E; rename E into H.
  apply bind_inv in H; destruct H as (a & w1 & Hre & H).
  destruct (read_events_inv port 4 (mkWorld 0 (mkFlow port 16 16 L) q false) a w1
              eq_refl Hown Hre)
    as (evs & Hlen & Hin & Hnow & Hconn & Hopen).
  cbn [in_chan now conn] in Hin, Hnow, Hconn.
  apply read_timeout_inv in H; [|exact Hopen]; destruct H as [Hnone H].
  assert (Hown1 : Forall (own port) (in_chan w1)).
  { rewrite Hin in Hown; apply Forall_app in Hown; tauto. }
  rewrite (filterWorker_own_list port _ Hown1) in Hnone.
  destruct w1 as [t1 c1 q1 z1]; cbn [in_chan now conn in_closed] in *.
  destruct q1; [|discriminate]; clear Hnone Hown1 Hre.
  rewrite app_nil_r in Hin; subst q t1 c1 z1.
  split; [exact Hlen|].
  destruct HL as [[_ Hq]|[-> _]]; [subst evs; discriminate|].
  (* packet 33 *)
  apply act_inv in H; apply act_inv in H.
  rewrite Nop_after_Sleep in H.
  change (sample (16 + 1 + 16)%N (Some (0 + 20 + cd - 0)%Z))
    with (sample 33%N (Some 40%Z)) in H.
  apply read_require_inv in H; [|reflexivity];
    destruct H as (ev33 & rest33 & Hf33 & H).
  cbn [in_chan now conn] in Hf33, H.
  destruct (sample 33%N (Some 40%Z)); [|discriminate Hf33].
  rewrite filterWorker_own in Hf33; injection Hf33 as <- <-.
  split; [reflexivity|].
  apply assert_inv in H; destruct H as [_ H].
  (* packet 34 *)
  apply act_inv in H; apply act_inv in H.
  rewrite Nop_after_Sleep in H.
  change (sample (16 + 1 + 1 + 16)%N (Some (0 + 20 + cd + cd - (0 + 20 + cd))%Z))
    with (sample 34%N (Some 20%Z)) in H.
  apply read_require_inv in H; [|reflexivity];
    destruct H as (ev34 & rest34 & Hf34 & H).
  cbn [in_chan now conn] in Hf34.
  destruct (sample 34%N (Some 20%Z)); [reflexivity | discriminate Hf34].
Qed.

Lemma longterm_test_accepts : forall port,
  List.length (reported_counts (Ping sample 16 (Dial port))) = 4%nat /\
  sample 33%N (Some 40%Z) = true /\ sample 34%N (Some 20%Z) = true ->
  passes (TestAcctProbeLongterm sample) (Dial port) = true.
Proof.
  intros port.
  destruct (Ping_shape 16 port 0 0 None [] false (Forall_nil _)
              (or_introl (conj eq_refl eq_refl)))
    as (L & q & HW & Hown & HL).
  change (0 + N.of_nat 16)%N with 16%N in HW.
  fold (Dial port) in HW.
  unfold reported_counts; rewrite HW; cbn [in_chan]; rewrite length_map.
  unfold passes.
  (* a producer that does so passes *)
  intros (Hlen & H33 & H34).
  assert (HL' : L = Some 0%Z).
  { destruct HL as [[_ ->]|[-> _]]; [discriminate | reflexivity]. }
  subst L.
  enough (exists res, TestAcctProbeLongterm sample (Dial port) = Some res)
    as [res ->] by reflexivity.
  unfold TestAcctProbeLongterm; cbv zeta.
  change (ClientPort (Dial port)) with port.
  rewrite bind_act, HW; cbv beta.
  rewrite (bind_value _ _ _ _ _ tt (mkWorld 0 (mkFlow port 16 16 (Some 0%Z)) [] false)).
  2:{ rewrite <- (app_nil_r q) at 1.
      apply read_events_own; [exact Hlen | exact Hown]. }
  rewrite bind_read_timeout; cbv beta.
  change (EqualError (snd (AcctEvent_zero, Some errChanTimeout)) "timeout") with true.
  unfold assert at 1; rewrite bind_require_true; cbv beta.
  (* packet 33 *)
  rewrite !bind_act; cbv beta.
  rewrite Nop_after_Sleep.
  change (sample (16 + 1 + 16)%N (Some (0 + 20 + cd - 0)%Z))
    with (sample 33%N (Some 40%Z)).
  rewrite H33.
  rewrite bind_read_own by reflexivity; cbv beta.
  cbn [snd fst NoError PacketsOrig PacketsRet].
  rewrite bind_require_true; cbv beta.
  change (EqualValues 33 (16 + 1 + 16)) with true.
  unfold assert at 1; rewrite bind_require_true; cbv beta.
  (* packet 34 *)
  rewrite !bind_act; cbv beta.
  rewrite Nop_after_Sleep.
  change (sample (16 + 1 + 1 + 16)%N (Some (0 + 20 + cd + cd - (0 + 20 + cd))%Z))
    with (sample 34%N (Some 20%Z)).
  rewrite H34.
  rewrite bind_read_own by reflexivity; cbv beta.
  cbn [snd fst NoError PacketsOrig PacketsRet].
  rewrite bind_require_true; cbv beta.
  change (EqualValues 34 (16 + 1 + 1 + 16)) with true.
  unfold assert at 1; rewrite bind_require_true; cbv beta.
  rewrite bind_read_timeout; cbv beta.
  eexists; reflexivity.
Qed.

(** X8: what [TestAcctProbeLongterm] checks of a producer.  Run on a new
    flow it passes exactly when the 32 packets of its sixteen pings are
    reported four times, at whatever counts, packet 33, sent 40 ms after the
    last report (the timed-out read of 20 ms and the sleep of the cooldown),
    is reported, and packet 34, sent one more cooldown after that report, is
    reported too.  It checks nothing about packets that come before the
    cooldown has elapsed. *)
Theorem longterm_test_checks : forall port,
  passes (TestAcctProbeLongterm sample) (Dial port) = true <->
  List.length (reported_counts (Ping sample 16 (Dial port))) = 4%nat /\
  sample 33%N (Some 40%Z) = true /\ sample 34%N (Some 20%Z) = true.
Proof.
  intros port; split; [apply longterm_test_needs | apply longterm_test_accepts].
Qed.

(** *** The startup test, the other way round *)

(** The events a train of packets adds have counts above the count the flow
    had before the train. *)
Lemma packet_counts_grow : forall c d w,
  (c <= pkts_orig (conn w) + pkts_ret (conn w))%N ->
  Forall (fun ev => (c < total ev)%N) (in_chan w) ->
  (c <= pkts_orig (conn (packet sample d w)) + pkts_ret (conn (packet sample d w)))%N /\
  Forall (fun ev => (c < total ev)%N) (in_chan (packet sample d w)).
Proof.
  intros c d w Hc Hq; unfold packet; cbv zeta.
  cbn [conn in_chan pkts_orig pkts_ret].
  pose proof (count_total d (conn w)) as Ht.
  split; [lia|].
  apply Forall_app; split; [exact Hq|].
  destruct (sample _ _); constructor; [|constructor].
  unfold total, event_of; cbn [PacketsOrig PacketsRet]; lia.
Qed.

Lemma Ping_counts_grow : forall c n w,
  (c <= pkts_orig (conn w) + pkts_ret (conn w))%N ->
  Forall (fun ev => (c < total ev)%N) (in_chan w) ->
  Forall (fun ev => (c < total ev)%N) (in_chan (Ping sample n w)).
Proof.
  intros c; induction n as [|n IH]; intros w Hc Hq; [exact Hq|].
  rewrite Ping_S.
  destruct (packet_counts_grow c Orig w Hc Hq) as [Hc1 Hq1].
  destruct (packet_counts_grow c Ret _ Hc1 Hq1) as [Hc2 Hq2].
  apply IH; assumption.
Qed.

Lemma In_emit : forall port o r c,
  In c (map total (emit sample port o r)) <->
  c = (o + r)%N /\ sample (o + r)%N (Some 0%Z) = true.
Proof.
  intros port o r c; unfold emit.
  destruct (sample (o + r)%N (Some 0%Z)); cbn [map In total PacketsOrig PacketsRet].
  - split; [intros [<-|[]]; split; reflexivity | intros [-> _]; left; reflexivity].
  - split; [intros [] | intros [_ H]; discriminate H].
Qed.

(** The counts reported of [n] pings sent after [k] pings, at the time of the
    flow's last report: those of the packets [2k+1 .. 2k+2n] that the producer
    reports with nothing elapsed. *)
Lemma ping_events_counts : forall n port k c,
  In c (map total (ping_events sample port k n)) <->
  (2 * k < c <= 2 * k + 2 * N.of_nat n)%N /\ sample c (Some 0%Z) = true.
Proof.
  induction n as [|n IH]; intros port k c; cbn [ping_events].
  - cbn [map In]; split; [intros [] | intros [Hc _]; lia].
  - rewrite !map_app, !in_app_iff, !In_emit, IH.
    split.
    + intros [[-> Hs]|[[-> Hs]|[Hc Hs]]]; (split; [lia | exact Hs]).
    + intros [Hc Hs].
      destruct (N.eq_dec c (k + 1 + k)) as [->|H1]; [left; split; [reflexivity | exact Hs]|].
      destruct (N.eq_dec c (k + 1 + (k + 1))) as [->|H2];
        [right; left; split; [reflexivity | exact Hs]|].
      right; right; split; [lia | exact Hs].
Qed.

(** [n] pings of which only the last packet is reported. *)
Lemma ping_events_last : forall n port k,
  (forall c, (2 * k < c <= 2 * k + 2 * N.of_nat n + 1)%N -> sample c (Some 0%Z) = false) ->
  sample (2 * k + 2 * N.of_nat n + 2)%N (Some 0%Z) = true ->
  ping_events sample port k (S n) =
  [mkAcctEvent port (k + N.of_nat n + 1) (k + N.of_nat n + 1)].
Proof.
  induction n as [|n IH]; intros port k Hq Hs.
  - cbn [ping_events N.of_nat] in Hs |- *; unfold emit.
    rewrite (Hq (k + 1 + k)%N) by lia.
    replace (k + 1 + (k + 1))%N with (2 * k + 2 * 0 + 2)%N by lia.
    rewrite Hs, N.add_0_r; reflexivity.
  - change (ping_events sample port k (S (S n)))
      with (emit sample port (k + 1) k ++ emit sample port (k + 1) (k + 1) ++
            ping_events sample port (k + 1) (S n)).
    unfold emit at 1 2.
    rewrite (Hq (k + 1 + k)%N), (Hq (k + 1 + (k + 1))%N) by lia.
    cbn [app]; rewrite IH.
    + replace (k + 1 + N.of_nat n + 1)%N with (k + N.of_nat (S n) + 1)%N by lia.
      reflexivity.
    + intros c Hc; apply Hq; lia.
    + replace (2 * (k + 1) + 2 * N.of_nat n + 2)%N
        with (2 * k + 2 * N.of_nat (S n) + 2)%N by lia.
      exact Hs.
Qed.

Lemma Ping_add : forall n m w,
  Ping sample (n + m) w = Ping sample m (Ping sample n w).
Proof.
  induction n as [|n IH]; intros m w; [reflexivity|].
  cbn [Nat.add]; rewrite !Ping_S; apply IH.
Qed.

Lemma Ping_16 : forall w,
  Ping sample 16 w = Ping sample 15 (Ping sample 1 w).
Proof. intros w; exact (Ping_add 1 15 w). Qed.

Lemma reported_counts_eq : forall w,
  reported_counts w = map total (in_chan w).
Proof. reflexivity. Qed.

Lemma cons_tail : forall (A : Type) (x y : A) l l', x :: l = y :: l' -> l = l'.
Proof. intros A x y l l' H; injection H as _ H; exact H. Qed.

(** A train of 32 back-to-back packets of a new flow whose first packet is
    reported. *)
Lemma train_counts : forall port,
  sample 1%N None = true ->
  reported_counts (Ping sample 16 (Dial port)) =
  1%N :: map total (if sample 2%N (Some 0%Z) then [mkAcctEvent port 1 1] else []) ++
         map total (ping_events sample port 1 15).
Proof.
  intros port E1; rewrite reported_counts_eq.
  rewrite Ping_16, Ping_Dial, E1.
  destruct (sample 2%N (Some 0%Z)); rewrite Ping_now; cbn [in_chan];
    rewrite <- app_assoc, !map_app; reflexivity.
Qed.

(** A train whose first packet is not reported does not start with a report
    of count 1. *)
Lemma train_first_report : forall port rest,
  reported_counts (Ping sample 16 (Dial port)) = 1%N :: rest ->
  sample 1%N None = true.
Proof.
  intros port rest H.
  destruct (sample 1%N None) eqn:E1; [reflexivity | exfalso].
  assert (HF : Forall (fun ev => (1 < total ev)%N)
                 (in_chan (Ping sample 16 (Dial port)))).
  { rewrite Ping_16, Ping_Dial, E1.
    apply Ping_counts_grow; cbn [conn in_chan pkts_orig pkts_ret app]; [lia|].
    destruct (sample 2%N None); repeat constructor. }
  rewrite reported_counts_eq in H.
  destruct (in_chan (Ping sample 16 (Dial port))) as [|ev q]; [discriminate H|].
  apply Forall_cons_iff in HF; destruct HF as [Hev _].
  apply (f_equal (@hd N 0%N)) in H; cbn [map hd] in H; lia.
Qed.

Lemma burst_decisions : forall port,
  reported_counts (Ping sample 16 (Dial port)) = [1; 2; 8; 32]%N ->
  sample 1%N None = true /\ sample 2%N (Some 0%Z) = true /\
  ping_events sample port 1 3 = [mkAcctEvent port 4 4] /\
  ping_events sample port 4 12 = [mkAcctEvent port 16 16].
Proof.
  intros port H.
  pose proof (train_first_report port _ H) as E1.
  rewrite (train_counts port E1) in H; apply cons_tail in H.
  assert (H' : sample 2%N (Some 0%Z) = true /\
               map total (ping_events sample port 1 15) = [8; 32]%N).
  { destruct (sample 2%N (Some 0%Z)); cbn [map app] in H.
    - apply cons_tail in H; split; [reflexivity | exact H].
    - exfalso.
      assert (Hin : In 2%N (map total (ping_events sample port 1 15)))
        by (rewrite H; left; reflexivity).
      apply ping_events_counts in Hin; lia. }
  clear H; destruct H' as [E2 H].
  assert (D : forall c, (3 <= c <= 32)%N ->
              (sample c (Some 0%Z) = true <-> c = 8%N \/ c = 32%N)).
  { intros c Hc.
    pose proof (ping_events_counts 15 port 1 c) as Hin; rewrite H in Hin.
    cbn [In] in Hin; split.
    - intros Hs. destruct Hin as [_ Hin].
      destruct Hin as [ <- | [ <- | [] ] ];
        [split; [lia | exact Hs] | left; reflexivity | right; reflexivity].
    - intros Hc'. destruct Hin as [Hin _].
      destruct Hin as [_ Hs]; [|exact Hs].
      destruct Hc' as [ -> | -> ]; [left | right; left]; reflexivity. }
  assert (Dq : forall c, (3 <= c <= 32)%N -> c <> 8%N -> c <> 32%N ->
               sample c (Some 0%Z) = false).
  { intros c Hc H8 H32. destruct (sample c (Some 0%Z)) eqn:Es; [|reflexivity].
    apply D in Es; [destruct Es; contradiction | exact Hc]. }
  split; [exact E1|]. split; [exact E2|]. split.
  - apply (ping_events_last 2 port 1).
    + intros c Hc; apply Dq; lia.
    + apply D; [cbn; lia | left; reflexivity].
  - apply (ping_events_last 11 port 4).
    + intros c Hc; apply Dq; lia.
    + apply D; [cbn; lia | right; reflexivity].
Qed.

(** X9: [TestAcctProbeStartup] accepts every producer that reports a train
    of 32 back-to-back packets of a new flow at the counts 1, 2, 8 and 32 and
    at no other: its four reads find the four events, with the counts it
    asserts, and its last read times out. *)
Theorem startup_test_accepts : forall port,
  reported_counts (Ping sample 16 (Dial port)) = [1; 2; 8; 32]%N ->
  passes (TestAcctProbeStartup sample) (Dial port) = true.
Proof.
  intros port H.
  destruct (burst_decisions port H) as (E1 & E2 & P8 & P32).
  unfold passes.
  enough (exists res, TestAcctProbeStartup sample (Dial port) = Some res)
    as [res ->] by reflexivity.
  unfold TestAcctProbeStartup; cbv zeta.
  change (ClientPort (Dial port)) with port.
  (* packets 1 and 2 *)
  rewrite bind_act, Ping_Dial, E1, E2; cbv beta; cbn [app].
  rewrite bind_read_own by reflexivity; cbv beta.
  cbn [snd NoError]; rewrite bind_require_true; cbv beta.
  rewrite bind_read_own by reflexivity; cbv beta.
  cbn [snd NoError]; rewrite bind_require_true; cbv beta.
  (* packet 8 *)
  rewrite bind_act, Ping_now, P8; cbv beta; cbn [app].
  change (1 + N.of_nat 3)%N with 4%N.
  rewrite bind_read_own by reflexivity; cbv beta.
  cbn [snd fst NoError PacketsOrig PacketsRet].
  rewrite bind_require_true; cbv beta.
  change (EqualValues 8 (4 + 4)) with true.
  unfold assert at 1; rewrite bind_require_true; cbv beta.
  (* packet 32 *)
  rewrite bind_act, Ping_now, P32; cbv beta; cbn [app].
  change (4 + N.of_nat 12)%N with 16%N.
  rewrite bind_read_own by reflexivity; cbv beta.
  cbn [snd fst NoError PacketsOrig PacketsRet].
  rewrite bind_require_true; cbv beta.
  change (EqualValues 32 (16 + 16)) with true.
  unfold assert at 1; rewrite bind_require_true; cbv beta.
  rewrite bind_read_timeout; cbv beta.
  eexists; reflexivity.
Qed.

(** *** The burst, for every train of packets *)








End TestFacts.

Section TestExamples.
Import bpf.

(** The theorem on the startup test at the producer that reports packets 1,
    2, 8 and 32 and then follows a cooldown of 50 ms. *)
Lemma startup_accepts_example :
  reported_counts (Ping (sample_1_2_8_32 50) 16 (Dial 50001)) = [1; 2; 8; 32]%N /\
  passes (TestAcctProbeStartup (sample_1_2_8_32 50)) (Dial 50001) = true.
Proof.
  split; [vm_compute; reflexivity|].
  apply (startup_test_accepts (sample_1_2_8_32 50) 50001%N).
  vm_compute; reflexivity.
Defined.



(** Why the rule is needed: the two tests send their packets back to back or
    a cooldown apart, so they accept a producer that reports other packets
    of the burst when they come in between. *)
Example tests_do_not_see_gaps :
  passes (TestAcctProbeStartup (sample_gap cd)) (Dial 40000) = true /\
  passes (TestAcctProbeLongterm (sample_gap cd)) (Dial 40000) = true /\
  reported_counts
    (arrivals (sample_gap cd) [(0, Orig); (0, Ret); (1, Orig); (1, Ret)]%Z (Dial 40000)) =
    [1; 2; 3; 4]%N /\
  ~ burst_by_count (sample_gap cd).
Proof.
  split; [vm_compute; reflexivity|].
  split; [vm_compute; reflexivity|].
  split; [vm_compute; reflexivity|].
  intros Hb. specialize (Hb 3%N (Some 1%Z) (Some 0%Z)).
  vm_compute in Hb. assert (H : true = false) by (apply Hb; discriminate).
  discriminate H.
Qed.

End TestExamples.
